(** * export_anki_to_markdown: a shallow embedding of [convert.py]

    The script fetches decks and notes from a local AnkiConnect endpoint,
    renders the note fields with html2text, derives file names and writes one
    Markdown file per note.

    - A Python [str] is a sequence of Unicode code points: a list of [N].
      A Python [int] is a [Z]; the [title_counts] dictionary is a [gmap].
    - A call that may raise returns [exn + A].  A run of [main] is the list
      of its effects on the console and the file system, in order.
    - The server is given by its reply to each request.  The ["result"] of a
      reply is typed by the action asked: deck names are strings, note ids
      are integers, a note has an id and named fields.
    - html2text is a library outside the repository: its [handle] is a
      parameter of the exporter.
    - Paths are joined as [posixpath] joins them, and the file system does
      what it is asked ([makedirs] and [open] do not fail). *)

From Stdlib Require Import ZArith NArith List String Ascii Lia Bool.
From stdpp Require Import base option list gmap strings pretty.

(** ** Strings *)

Abbreviation pystr := (list N).

(** An ASCII literal of the source as a list of code points. *)
Definition lit (s : string) : pystr :=
  map N_of_ascii (list_ascii_of_string s).

Definition SPACE : N := 32.
Definition UNDERSCORE : N := 95.
Definition SLASH : N := 47.
Definition COLON : N := 58.

(** Python truthiness of a [str] or a [list]: non-empty. *)
Definition truthy {A} (l : list A) : bool :=
  match l with [] => false | _ :: _ => true end.

(** [s.replace(a, b)] for one-character [a] and [b]. *)
Definition str_replace (a b : N) (s : pystr) : pystr :=
  map (fun c => if (c =? a)%N then b else c) s.

(** [s.lstrip], [s.rstrip] and [s.strip] for a set of characters [p]. *)
Fixpoint lstrip (p : N -> bool) (s : pystr) : pystr :=
  match s with
  | [] => []
  | c :: s' => if p c then lstrip p s' else s
  end.

Fixpoint rstrip (p : N -> bool) (s : pystr) : pystr :=
  match s with
  | [] => []
  | c :: s' =>
      match rstrip p s' with
      | [] => if p c then [] else [c]
      | r => c :: r
      end
  end.

Definition strip (p : N -> bool) (s : pystr) : pystr := rstrip p (lstrip p s).

Definition is_underscore (c : N) : bool := (c =? UNDERSCORE)%N.

Definition in_range (lo hi c : N) : bool := ((lo <=? c) && (c <=? hi))%N.

(** [str.isspace] on one code point: what [str.strip()] removes. *)
Definition is_space (c : N) : bool :=
  in_range 9 13 c || in_range 28 32 c || (c =? 133)%N || (c =? 160)%N
  || (c =? 5760)%N || in_range 8192 8202 c || (c =? 8232)%N || (c =? 8233)%N
  || (c =? 8239)%N || (c =? 8287)%N || (c =? 12288)%N.

(** [re.sub(r'_+', '_', s)]: every maximal run of underscores becomes one
    underscore (an underscore followed by another one is dropped). *)
Fixpoint re_sub_underscores (s : pystr) : pystr :=
  match s with
  | [] => []
  | c :: s' =>
      if is_underscore c then
        match s' with
        | c' :: _ => if is_underscore c' then re_sub_underscores s'
                     else c :: re_sub_underscores s'
        | [] => [c]
        end
      else c :: re_sub_underscores s'
  end.

(** ** [sanitize_filename] *)

(** The character class [[a-zA-Z0-9\-_.À-ſ]]. *)
Definition allowed_char (c : N) : bool :=
  in_range 97 122 c || in_range 65 90 c || in_range 48 57 c
  || (c =? 45)%N || (c =? 95)%N || (c =? 46)%N || in_range 192 383 c.

Definition unnamed : pystr := Eval cbv in lit "unnamed".

Definition sanitize_filename (name : pystr) : pystr :=
  let name := str_replace SPACE UNDERSCORE name in
  let sanitized := map (fun c => if allowed_char c then c else UNDERSCORE) name in
  let sanitized := strip is_underscore (re_sub_underscores sanitized) in
  if truthy sanitized then sanitized else unnamed.

(** ** [truncate_title] *)

Definition len (s : pystr) : Z := Z.of_nat (length s).

(** The end of a slice [s[:e]] as an offset: a negative [e] counts from the
    end of the string, and the result is clamped to [0 .. len s]. *)
Definition slice_end (s : pystr) (e : Z) : nat :=
  Z.to_nat (Z.min (len s) (if (e <? 0)%Z then Z.max 0 (len s + e) else e)).

(** [s[:e]]. *)
Definition slice_to (s : pystr) (e : Z) : pystr := firstn (slice_end s e) s.

(** The highest index at or after [i] of [c] in [s], counting the head of
    [s] as index [i]; [-1] when [c] does not occur. *)
Fixpoint rfind_from (c : N) (s : pystr) (i : Z) : Z :=
  match s with
  | [] => (-1)%Z
  | x :: s' =>
      let r := rfind_from c s' (i + 1) in
      if (r =? -1)%Z then (if (x =? c)%N then i else (-1)%Z) else r
  end.

(** [s.rfind(c, 0, e)] for a one-character [c]. *)
Definition rfind (c : N) (s : pystr) (e : Z) : Z :=
  rfind_from c (slice_to s e) 0.

Definition truncate_title (title : pystr) (max_length : Z) : pystr :=
  if (len title <=? max_length)%Z then title
  else
    let space_index := rfind SPACE title max_length in
    if negb (space_index =? -1)%Z then slice_to title space_index
    else slice_to title max_length.

(** ** Paths *)

Definition startswith_sep (b : pystr) : bool :=
  match b with c :: _ => (c =? SLASH)%N | [] => false end.

Definition endswith_sep (p : pystr) : bool :=
  match last p with Some c => (c =? SLASH)%N | None => false end.

(** [os.path.join(path, *ps)] of [posixpath]. *)
Fixpoint os_path_join (path : pystr) (ps : list pystr) : pystr :=
  match ps with
  | [] => path
  | b :: ps' =>
      os_path_join
        (if startswith_sep b then b
         else if negb (truthy path) || endswith_sep path then path ++ b
         else path ++ [SLASH] ++ b)
        ps'
  end.

(** The components of a path: the pieces between separators. *)
Fixpoint path_components (p : pystr) : list pystr :=
  match p with
  | [] => [[]]
  | c :: p' =>
      if (c =? SLASH)%N then [] :: path_components p'
      else match path_components p' with
           | h :: t => (c :: h) :: t
           | [] => [[c]]
           end
  end.

(** [s.split("::")]: scanning from the left, every occurrence of the
    separator that does not overlap an earlier one ends a part; [cur] holds
    the part being read. *)
Fixpoint split_dcolon_from (cur : pystr) (s : pystr) : list pystr :=
  match s with
  | [] => [cur]
  | c :: s' =>
      match s' with
      | c' :: s'' =>
          if ((c =? COLON) && (c' =? COLON))%N then cur :: split_dcolon_from [] s''
          else split_dcolon_from (cur ++ [c]) s'
      | [] => [cur ++ [c]]
      end
  end.

Definition split_dcolon (s : pystr) : list pystr := split_dcolon_from [] s.

(** ** The AnkiConnect client *)

(** A decoded JSON value (numbers: the integers). *)
#[warnings="-register-all"]
Inductive JSON :=
| JNull
| JBool (b : bool)
| JInt (n : Z)
| JStr (s : pystr)
| JArr (l : list JSON)
| JObj (o : list (pystr * JSON)).

(** Python truthiness of a decoded JSON value. *)
Definition json_truthy (v : JSON) : bool :=
  match v with
  | JNull => false
  | JBool b => b
  | JInt n => negb (n =? 0)%Z
  | JStr s => truthy s
  | JArr l => truthy l
  | JObj o => truthy o
  end.

(** The decoded body of a reply, as far as [anki_connect] looks at it:
    either not a JSON object, or an object with its ["error"] and
    ["result"] members ([None]: the key is absent).  The result is typed by
    the action that was asked. *)
Inductive decoded (R : Type) :=
| NotDict
| Dict (error : option JSON) (result : option R).
Arguments NotDict {R}.
Arguments Dict {R} error result.

(** What the server does with one request: [requests.post] fails, or a reply
    arrives with a status code and a body ([None]: the body is not JSON). *)
Inductive post_result (R : Type) :=
| ConnectionFailed
| Replied (status_code : Z) (body : option (decoded R)).
Arguments ConnectionFailed {R}.
Arguments Replied {R} status_code body.

(** The [requests.exceptions.RequestException]s of the [try] block. *)
Inductive request_exception :=
| ConnectionError
| HTTPError (status_code : Z)
| JSONDecodeError.

(** The two messages of the plain [Exception]s that [anki_connect] raises. *)
Inductive message :=
| AnkiConnectError (error : JSON)
| FailedToConnect (e : request_exception).

Inductive exn :=
| Exception (m : message)
| AttributeError
| KeyError (key : pystr)
| UnboundLocalError (var : pystr).

(** [response.raise_for_status()] raises on 4xx and 5xx. *)
Definition raise_for_status (status_code : Z) : bool :=
  ((400 <=? status_code) && (status_code <? 600))%Z.

(** [anki_connect(action, **params)], given what the server does with the
    request.  [response.json()] raises a [RequestException] on a body that is
    not JSON (requests 2.27 and later). *)
Definition anki_connect {R} (reply : post_result R) : exn + R :=
  match reply with
  | ConnectionFailed => inl (Exception (FailedToConnect ConnectionError))
  | Replied status_code body =>
      if raise_for_status status_code
      then inl (Exception (FailedToConnect (HTTPError status_code)))
      else
        match body with
        | None => inl (Exception (FailedToConnect JSONDecodeError))
        | Some NotDict => inl AttributeError
        | Some (Dict error result) =>
            let e := default JNull error in
            if json_truthy e then inl (Exception (AnkiConnectError e))
            else match result with
                 | Some r => inr r
                 | None => inl (KeyError (lit "result"))
                 end
        end
  end.

(** The transport fails: a [RequestException] is raised in the [try] block. *)
Definition transport_fails {R} (reply : post_result R) : bool :=
  match reply with
  | ConnectionFailed => true
  | Replied status_code body =>
      raise_for_status status_code || match body with None => true | Some _ => false end
  end.

(** The ["error"] and ["result"] members of a reply whose body is a JSON
    object. *)
Definition error_member {R} (reply : post_result R) : option JSON :=
  match reply with
  | Replied _ (Some (Dict error _)) => error
  | _ => None
  end.

Definition result_member {R} (reply : post_result R) : option R :=
  match reply with
  | Replied _ (Some (Dict _ result)) => result
  | _ => None
  end.

Definition is_dict {R} (reply : post_result R) : bool :=
  match reply with
  | Replied _ (Some (Dict _ _)) => true
  | _ => false
  end.

(** The reply carries an error marker as the code tests it: [result.get("error")]
    is truthy. *)
Definition error_truthy {R} (reply : post_result R) : bool :=
  json_truthy (default JNull (error_member reply)).

(** A note as [notesInfo] returns it: its id ([None]: no ["noteId"] key) and
    its fields, each field name mapped to the field's ["value"]. *)
Record note := { noteId : option Z; fields : gmap pystr pystr }.

(** The server: its reply to each of the three requests the script sends. *)
Record server := {
  deckNames : post_result (list pystr);
  findNotes : pystr -> post_result (list Z);
  notesInfo : list Z -> post_result (list note)
}.

Definition get_deck_names (srv : server) : exn + list pystr :=
  anki_connect (deckNames srv).

Definition QUOTE : N := 34.

Definition get_notes_in_deck (srv : server) (deck_name : pystr)
  : exn + list note :=
  match anki_connect (findNotes srv (lit "deck:" ++ [QUOTE] ++ deck_name ++ [QUOTE])) with
  | inl e => inl e
  | inr note_ids =>
      if negb (truthy note_ids) then inr []
      else anki_connect (notesInfo srv note_ids)
  end.

(** ** The exporter *)

(** What the run does to the console and the file system, in order.
    [Opened p] is [open(p, "w")]: the file exists and is empty afterwards. *)
Inductive event :=
| Printed (line : pystr)
| PrintedError (e : exn)
| MadeDirs (path : pystr)
| Opened (path : pystr)
| Wrote (path : pystr) (data : pystr).

(** The variables of [main] that live across iterations of the note loop:
    [title] ([None]: not assigned yet) and [title_counts]. *)
Record locals := { title : option pystr; title_counts : gmap pystr nat }.

Definition NL : N := 10.

(** [str(n)] for an [int], and for the [noteId] that may be [None]. *)
Definition str_int (n : Z) : pystr := lit (pretty n).
Definition str_nat (n : nat) : pystr := lit (pretty n).
Definition str_note_id (note_id : option Z) : pystr :=
  match note_id with None => lit "None" | Some n => str_int n end.

Definition output_dir : pystr := Eval cbv in lit "markdown_output".

Definition directory_path (deck_name : pystr) : pystr :=
  let parts := split_dcolon deck_name in
  let sanitized_parts := map sanitize_filename (List.filter truthy parts) in
  os_path_join output_dir sanitized_parts.

(** A loop whose body may raise: the events of the iterations that ran, and
    the exception or the final state. *)
Fixpoint for_each {A S : Type} (body : S -> A -> list event * (exn + S))
    (xs : list A) (st : S) : list event * (exn + S) :=
  match xs with
  | [] => ([], inr st)
  | x :: xs' =>
      match body st x with
      | (tr, inl e) => (tr, inl e)
      | (tr, inr st') =>
          let '(tr', r) := for_each body xs' st' in (tr ++ tr', r)
      end
  end.

Section Exporter.

(** [html2text.HTML2Text().handle] with the options [clean_field] sets. *)
Variable handle : pystr -> pystr.

Definition clean_field (field : option pystr) : pystr :=
  match field with
  | None => []
  | Some field => strip is_space (handle field)
  end.

(** One iteration of the note loop (lines 115-148).  When [title] was
    never assigned, formatting the text to write raises inside the [with]
    block: the file has been opened and nothing is written to it. *)
Definition process_note (dir : pystr) (st : locals) (n : note)
  : list event * (exn + locals) :=
  let front := default [] (fields n !! lit "Front") in
  let back := default [] (fields n !! lit "Back") in
  let note_id := noteId n in
  let '(title', truncated_title) :=
    if truthy front then
      let t := clean_field (Some front) in (Some t, truncate_title t 200)
    else (title st, lit "Note_" ++ str_note_id note_id) in
  let content := if truthy back then clean_field (Some back) else [] in
  let base_filename := sanitize_filename truncated_title in
  let count := default 0 (title_counts st !! base_filename) in
  let filename :=
    if 0 <? count then base_filename ++ lit "_" ++ str_nat count ++ lit ".md"
    else base_filename ++ lit ".md" in
  let title_counts' := <[base_filename := count + 1]> (title_counts st) in
  let full_path := os_path_join dir [filename] in
  match title' with
  | None => ([Opened full_path], inl (UnboundLocalError (lit "title")))
  | Some t =>
      ([Opened full_path;
        Wrote full_path (lit "# " ++ t ++ [NL; NL] ++ content ++ [NL]);
        Printed (lit "Saved note " ++ str_note_id note_id ++ lit " to " ++ full_path)],
       inr {| title := title'; title_counts := title_counts' |})
  end.

(** One iteration of the deck loop (lines 98-148); [title] is [main]'s
    variable, carried from deck to deck. *)
Definition process_deck (srv : server) (title0 : option pystr) (deck_name : pystr)
  : list event * (exn + option pystr) :=
  let processing := Printed (lit "Processing deck: " ++ deck_name) in
  match get_notes_in_deck srv deck_name with
  | inl e => ([processing], inl e)
  | inr notes =>
      if negb (truthy notes)
      then ([processing; Printed (lit "No notes found in deck: " ++ deck_name)],
            inr title0)
      else
        let dir := directory_path deck_name in
        let '(tr, r) :=
          for_each (process_note dir) notes
                   {| title := title0; title_counts := ∅ |} in
        (processing :: MadeDirs dir :: tr,
         match r with inl e => inl e | inr st => inr (title st) end)
  end.

(** [main]: the events of a run. *)
Definition main (srv : server) : list event :=
  match get_deck_names srv with
  | inl e => [PrintedError e]
  | inr deck_names =>
      if negb (truthy deck_names) then [Printed (lit "No decks found in Anki.")]
      else
        let '(tr, r) := for_each (process_deck srv) deck_names None in
        MadeDirs output_dir :: tr
          ++ match r with inl e => [PrintedError e] | inr _ => [] end
  end.

End Exporter.

(** The base file name the note loop derives for a note (lines 122-132). *)
Definition base_filename_of (handle : pystr -> pystr) (n : note) : pystr :=
  let front := default [] (fields n !! lit "Front") in
  sanitize_filename
    (if truthy front then truncate_title (clean_field handle (Some front)) 200
     else lit "Note_" ++ str_note_id (noteId n)).

(** The file name a base name gets as the [k]-th note of its name in a deck:
    [base.md] for the first, [base_k.md] after it. *)
Definition nth_filename (base : pystr) (k : nat) : pystr :=
  match k with
  | O => base ++ lit ".md"
  | S _ => base ++ lit "_" ++ str_nat k ++ lit ".md"
  end.

(** The allow-list in the words of the specification. *)
Definition in_allow_list (c : N) : Prop :=
  (97 <= c <= 122 \/ 65 <= c <= 90 \/ 48 <= c <= 57
   \/ c = 45 \/ c = 95 \/ c = 46 \/ 192 <= c <= 383)%N.

(** Two underscores in a row somewhere in the string. *)
Fixpoint adjacent_underscores (s : pystr) : bool :=
  match s with
  | [] => false
  | c :: s' =>
      match s' with
      | [] => false
      | c' :: _ => (is_underscore c && is_underscore c') || adjacent_underscores s'
      end
  end.

(** What [sanitize_filename] returns: allowed characters only, no two
    underscores in a row, no underscore at either end, not empty. *)
Definition sanitized (s : pystr) : Prop :=
  Forall (fun c => allowed_char c = true) s
  /\ adjacent_underscores s = false
  /\ (forall c, head s = Some c -> is_underscore c = false)
  /\ (forall c, last s = Some c -> is_underscore c = false)
  /\ s <> [].

(** The note loop can write the first of [notes]: [title] is assigned
    already, or the note has a front. *)
Definition can_write (st : locals) (notes : list note) : Prop :=
  title st <> None
  \/ match notes with
     | n :: _ => truthy (default [] (fields n !! lit "Front")) = true
     | [] => True
     end.

(** A path segment: not empty and without a separator. *)
Definition segment (s : pystr) : Prop := s <> [] /\ ~ In SLASH s.

Definition is_MadeDirs (ev : event) : bool :=
  match ev with MadeDirs _ => true | _ => false end.

(** ** Inputs of the examples *)

(** Equality of strings, as a test. *)
Fixpoint str_eqb (a b : pystr) : bool :=
  match a, b with
  | [], [] => true
  | x :: a', y :: b' => (x =? y)%N && str_eqb a' b'
  | _, _ => false
  end.

(** [handle], except that the field [text] is rendered as [rendered]. *)
Definition handle_with (handle : pystr -> pystr) (text rendered : pystr)
  : pystr -> pystr :=
  fun field => if str_eqb field text then rendered else handle field.

(** A note that has no "Front" field (a Cloze note, say), and a note whose
    "Front" field holds [front]; neither has a "Back" field. *)
Definition note_without_front (id : Z) : note :=
  {| noteId := Some id; fields := ∅ |}.

Definition note_with_front (id : Z) (front : pystr) : note :=
  {| noteId := Some id; fields := {[ lit "Front" := front ]} |}.

(** A server that has no deck. *)
Definition srv_no_decks : server :=
  {| deckNames := Replied 200 (Some (Dict (Some JNull) (Some [])));
     findNotes := fun _ => ConnectionFailed;
     notesInfo := fun _ => ConnectionFailed |}.

(** A server with the one deck [deck_name], holding [notes]. *)
Definition srv_one_deck (deck_name : pystr) (notes : list note) : server :=
  {| deckNames := Replied 200 (Some (Dict (Some JNull) (Some [deck_name])));
     findNotes := fun _ =>
       Replied 200 (Some (Dict (Some JNull)
                               (Some (map (fun n => default 0%Z (noteId n)) notes))));
     notesInfo := fun _ => Replied 200 (Some (Dict (Some JNull) (Some notes))) |}.

(** The paths opened for writing, in order. *)
Definition opened_paths (tr : list event) : list pystr :=
  flat_map (fun ev => match ev with Opened p => [p] | _ => [] end) tr.

(** The events that touch the file system. *)
Definition touches_fs (ev : event) : bool :=
  match ev with
  | MadeDirs _ | Opened _ | Wrote _ _ => true
  | Printed _ | PrintedError _ => false
  end.

(** ** Definitions for the further properties *)

(** [sep.join(parts)]. *)
Fixpoint str_join (sep : pystr) (parts : list pystr) : pystr :=
  match parts with
  | [] => []
  | p :: ps =>
      match ps with
      | [] => p
      | _ :: _ => p ++ sep ++ str_join sep ps
      end
  end.

(** How many of [notes] derive the base name [base]. *)
Definition with_base (handle : pystr -> pystr) (base : pystr) (notes : list note)
  : nat :=
  length (List.filter (fun n => str_eqb (base_filename_of handle n) base) notes).


(** The directories created, in order. *)
Definition made_dirs (tr : list event) : list pystr :=
  flat_map (fun ev => match ev with MadeDirs p => [p] | _ => [] end) tr.


(** What the character class turns a character into: itself when it is
    allowed, an underscore otherwise (line 68). *)
Definition keep_or_underscore (c : N) : N :=
  if allowed_char c then c else UNDERSCORE.

(** The paths the note loop opens when nothing stops it: the note at
    position [i] gets the name of its base with the number of earlier notes
    of the deck that have the same base. *)
Definition expected_paths (handle : pystr -> pystr) (dir : pystr)
    (notes : list note) : list pystr :=
  imap (fun i n =>
          let base := base_filename_of handle n in
          os_path_join dir [nth_filename base (with_base handle base (firstn i notes))])
       notes.

(** The deck name is one of those the server lists. *)
Definition listed (srv : server) (deck_name : pystr) : Prop :=
  match get_deck_names srv with
  | inr deck_names => In deck_name deck_names
  | inl _ => False
  end.

(** Where an event touches the file system: a directory that is created
    is the output root or the directory of a listed deck, and a file that
    is opened or written stands in the directory of a listed deck under one
    of the names of a note. *)
Definition in_deck_directory (handle : pystr -> pystr) (srv : server)
    (ev : event) : Prop :=
  match ev with
  | MadeDirs p =>
      p = output_dir \/ exists d, listed srv d /\ p = directory_path d
  | Opened p | Wrote p _ =>
      exists d n k,
        listed srv d
        /\ p = directory_path d ++ SLASH :: nth_filename (base_filename_of handle n) k
  | Printed _ | PrintedError _ => True
  end.






(** * Properties *)

(** ** Characters and the string helpers *)

Lemma allowed_char_spec (c : N) : allowed_char c = true <-> in_allow_list c.
Proof.
  unfold allowed_char, in_allow_list, in_range.
  rewrite !orb_true_iff, !andb_true_iff, !N.leb_le, !N.eqb_eq. tauto.
Qed.

Lemma is_underscore_eq (c : N) : is_underscore c = true <-> c = UNDERSCORE.
Proof. unfold is_underscore. apply N.eqb_eq. Qed.

Lemma truthy_nonempty {A} (l : list A) : truthy l = true <-> l <> [].
Proof. destruct l; simpl; split; congruence. Qed.

(** [lstrip] keeps a suffix, [rstrip] a prefix. *)
Lemma lstrip_suffix p s : exists k, s = k ++ lstrip p s /\ Forall (fun c => p c = true) k.
Proof.
  induction s as [|c s IH]; simpl.
  - exists []. split; [reflexivity | constructor].
  - destruct (p c) eqn:Hc.
    + destruct IH as (k & Hk & Hall). exists (c :: k). split.
      * simpl. congruence.
      * constructor; assumption.
    + exists []. split; [reflexivity | constructor].
Qed.

Lemma rstrip_prefix p s : exists k, s = rstrip p s ++ k /\ Forall (fun c => p c = true) k.
Proof.
  induction s as [|c s IH]; simpl.
  - exists []. split; [reflexivity | constructor].
  - destruct IH as (k & Hk & Hall).
    destruct (rstrip p s) as [|r rs] eqn:Hr.
    + destruct (p c) eqn:Hc.
      * exists (c :: k). simpl in *. split; [congruence | constructor; assumption].
      * exists k. simpl in *. split; [congruence | assumption].
    + exists k. simpl in *. split; [congruence | assumption].
Qed.

Lemma lstrip_head p s c : head (lstrip p s) = Some c -> p c = false.
Proof.
  induction s as [|x s IH]; simpl; [discriminate |].
  destruct (p x) eqn:Hx; [exact IH |]. simpl. congruence.
Qed.

Lemma rstrip_last p s c : last (rstrip p s) = Some c -> p c = false.
Proof.
  induction s as [|x s IH]; simpl; [discriminate |].
  destruct (rstrip p s) as [|r rs] eqn:Hr.
  - destruct (p x) eqn:Hx; simpl; [discriminate | congruence].
  - intros H. apply IH. exact H.
Qed.

Lemma rstrip_head p s : rstrip p s <> [] -> head (rstrip p s) = head s.
Proof.
  destruct s as [|x s]; simpl; [congruence |].
  destruct (rstrip p s); [destruct (p x) |]; simpl; congruence.
Qed.

Lemma lstrip_id p s : (forall c, head s = Some c -> p c = false) -> lstrip p s = s.
Proof.
  destruct s as [|x s]; simpl; [reflexivity |].
  intros H. rewrite (H x eq_refl). reflexivity.
Qed.

Lemma rstrip_id p s : (forall c, last s = Some c -> p c = false) -> rstrip p s = s.
Proof.
  induction s as [|x s IH]; simpl; [reflexivity |].
  intros H. destruct s as [|y s].
  - simpl. rewrite (H x eq_refl). reflexivity.
  - rewrite IH by (intros c Hc; apply H; exact Hc).
    reflexivity.
Qed.

Lemma lstrip_all p s : Forall (fun c => p c = true) s -> lstrip p s = [].
Proof. induction 1 as [|c s Hc _ IH]; simpl; [reflexivity |]. rewrite Hc. exact IH. Qed.

(** No two underscores in a row: pieces of such a string are such strings. *)
Lemma adjacent_underscores_tail c s :
  adjacent_underscores (c :: s) = false -> adjacent_underscores s = false.
Proof.
  simpl. destruct s as [|c' s]; [reflexivity |].
  intros H. apply orb_false_iff in H. apply H.
Qed.

Lemma adjacent_underscores_app_r k s :
  adjacent_underscores (k ++ s) = false -> adjacent_underscores s = false.
Proof.
  induction k as [|c k IH]; [trivial |].
  intros H. apply IH. exact (adjacent_underscores_tail _ _ H).
Qed.

Lemma adjacent_underscores_app_l s k :
  adjacent_underscores (s ++ k) = false -> adjacent_underscores s = false.
Proof.
  induction s as [|c s IH]; [reflexivity |].
  intros H. pose proof (adjacent_underscores_tail _ _ H) as Ht.
  specialize (IH Ht). destruct s as [|c' s]; [reflexivity |].
  simpl in *. apply orb_false_iff in H. destruct H as [H _].
  rewrite H, IH. reflexivity.
Qed.

Lemma adjacent_underscores_lookup s :
  adjacent_underscores s = false ->
  forall i, s !! i = Some UNDERSCORE -> s !! S i <> Some UNDERSCORE.
Proof.
  induction s as [|c s IH]; intros Hs i Hi; [discriminate |].
  destruct i as [|i].
  - simpl in Hi. injection Hi as ->. destruct s as [|c' s]; [discriminate |].
    simpl in Hs. apply orb_false_iff in Hs. destruct Hs as [Hs _].
    simpl. intros [= ->]. discriminate.
  - apply (IH (adjacent_underscores_tail _ _ Hs) i). exact Hi.
Qed.

(** [re.sub(r'_+', '_', s)] keeps the first character, keeps characters of
    [s] only, and leaves no two underscores in a row. *)
Lemma re_sub_underscores_head s : head (re_sub_underscores s) = head s.
Proof.
  induction s as [|c s IH]; [reflexivity |].
  simpl. destruct (is_underscore c) eqn:Hc; [| reflexivity].
  destruct s as [|c' s]; [reflexivity |].
  destruct (is_underscore c') eqn:Hc'; [| reflexivity].
  rewrite IH. simpl.
  apply is_underscore_eq in Hc, Hc'. congruence.
Qed.

Lemma re_sub_underscores_Forall (P : N -> Prop) s :
  Forall P s -> Forall P (re_sub_underscores s).
Proof.
  induction 1 as [|c s Hc Hs IH]; [constructor |].
  simpl. destruct (is_underscore c).
  - destruct s as [|c' s]; [repeat constructor; exact Hc |].
    destruct (is_underscore c'); [exact IH | constructor; assumption].
  - constructor; assumption.
Qed.

Lemma re_sub_underscores_no_adjacent s :
  adjacent_underscores (re_sub_underscores s) = false.
Proof.
  induction s as [|c s IH]; [reflexivity |].
  pose proof (re_sub_underscores_head s) as Hh.
  simpl. destruct (is_underscore c) eqn:Hc.
  - destruct s as [|c' s]; [reflexivity |].
    destruct (is_underscore c') eqn:Hc'; [exact IH |].
    destruct (re_sub_underscores (c' :: s)) as [|x r] eqn:Hr; [reflexivity |].
    simpl in Hh. injection Hh as ->.
    change (adjacent_underscores (c :: c' :: r))
      with ((is_underscore c && is_underscore c') || adjacent_underscores (c' :: r)).
    rewrite Hc', andb_false_r. exact IH.
  - destruct (re_sub_underscores s) as [|x r] eqn:Hr; [reflexivity |].
    change (adjacent_underscores (c :: x :: r))
      with ((is_underscore c && is_underscore x) || adjacent_underscores (x :: r)).
    rewrite Hc. exact IH.
Qed.

Lemma re_sub_underscores_id s :
  adjacent_underscores s = false -> re_sub_underscores s = s.
Proof.
  induction s as [|c s IH]; [reflexivity |].
  intros H. pose proof (adjacent_underscores_tail _ _ H) as Ht.
  simpl. rewrite (IH Ht).
  destruct (is_underscore c) eqn:Hc; [| reflexivity].
  destruct s as [|c' s]; [reflexivity |].
  simpl in H. apply orb_false_iff in H. destruct H as [H _].
  rewrite Hc in H. simpl in H. rewrite H. reflexivity.
Qed.

(** ** [sanitize_filename] *)

Lemma sanitized_unnamed : sanitized unnamed.
Proof.
  unfold sanitized, unnamed. repeat split.
  - repeat constructor.
  - simpl. intros c [= <-]. reflexivity.
  - simpl. intros c [= <-]. reflexivity.
  - discriminate.
Qed.

Lemma sanitize_filename_sanitized (name : pystr) : sanitized (sanitize_filename name).
Proof.
  unfold sanitize_filename.
  set (m := map (fun c => if allowed_char c then c else UNDERSCORE)
                (str_replace SPACE UNDERSCORE name)).
  assert (Hm : Forall (fun c => allowed_char c = true) m).
  { unfold m. apply List.Forall_forall. intros c Hc.
    apply in_map_iff in Hc. destruct Hc as (x & <- & _).
    destruct (allowed_char x) eqn:Hx; [exact Hx | reflexivity]. }
  pose proof (re_sub_underscores_Forall _ _ Hm) as Hr.
  pose proof (re_sub_underscores_no_adjacent m) as Hadj.
  destruct (lstrip_suffix is_underscore (re_sub_underscores m)) as (k & Hk & _).
  unfold strip.
  set (l := lstrip is_underscore (re_sub_underscores m)) in *.
  destruct (rstrip_prefix is_underscore l) as (k' & Hk' & _).
  destruct (truthy (rstrip is_underscore l)) eqn:Ht; [| exact sanitized_unnamed].
  apply truthy_nonempty in Ht.
  rewrite Hk in Hr, Hadj.
  apply Forall_app in Hr. destruct Hr as [_ Hl].
  apply adjacent_underscores_app_r in Hadj.
  rewrite Hk' in Hl, Hadj.
  apply Forall_app in Hl. destruct Hl as [Hout _].
  apply adjacent_underscores_app_l in Hadj.
  repeat split; try assumption.
  - intros c Hc. rewrite (rstrip_head _ _ Ht) in Hc.
    exact (lstrip_head _ _ _ Hc).
  - intros c Hc. exact (rstrip_last _ _ _ Hc).
Qed.

Lemma sanitized_fixpoint (s : pystr) : sanitized s -> sanitize_filename s = s.
Proof.
  intros (Hall & Hadj & Hhd & Hlast & Hne).
  unfold sanitize_filename.
  assert (H1 : str_replace SPACE UNDERSCORE s = s).
  { unfold str_replace. clear -Hall. induction Hall as [|c s Hc _ IH]; [reflexivity |].
    simpl. rewrite IH. f_equal.
    destruct (c =? SPACE)%N eqn:E; [| reflexivity].
    apply N.eqb_eq in E. subst c. discriminate. }
  rewrite H1.
  assert (H2 : map (fun c => if allowed_char c then c else UNDERSCORE) s = s).
  { clear -Hall. induction Hall as [|c s Hc _ IH]; [reflexivity |].
    simpl. rewrite IH, Hc. reflexivity. }
  rewrite H2, (re_sub_underscores_id _ Hadj).
  unfold strip. rewrite (lstrip_id _ _ Hhd), (rstrip_id _ _ Hlast).
  apply truthy_nonempty in Hne. rewrite Hne. reflexivity.
Qed.

(** C4: for every input string, the output of [sanitize_filename] contains
    only characters of the allow-list (ASCII letters, digits, hyphen,
    underscore, period, U+00C0 to U+017F), has no two consecutive
    underscores, has no leading or trailing underscore and is not empty; it
    is the placeholder "unnamed" when no character of the input survives
    (each one is outside the allow-list or an underscore). *)
Theorem sanitize_filename_output (name : pystr) :
  let out := sanitize_filename name in
  Forall in_allow_list out
  /\ (forall i, out !! i = Some UNDERSCORE -> out !! S i <> Some UNDERSCORE)
  /\ head out <> Some UNDERSCORE
  /\ last out <> Some UNDERSCORE
  /\ out <> []
  /\ (Forall (fun c => allowed_char c = false \/ c = UNDERSCORE) name ->
      out = lit "unnamed").
Proof.
  intros out.
  destruct (sanitize_filename_sanitized name)
    as (Hall & Hadj & Hhd & Hlast & Hne).
  fold out in Hall, Hadj, Hhd, Hlast, Hne.
  repeat split.
  - eapply Forall_impl; [exact Hall |]. intros c Hc. apply allowed_char_spec, Hc.
  - exact (adjacent_underscores_lookup _ Hadj).
  - intros H. specialize (Hhd _ H). discriminate.
  - intros H. specialize (Hlast _ H). discriminate.
  - exact Hne.
  - intros Hname. unfold out, sanitize_filename.
    set (m := map (fun c => if allowed_char c then c else UNDERSCORE)
                  (str_replace SPACE UNDERSCORE name)).
    assert (Hm : Forall (fun c => is_underscore c = true) m).
    { unfold m, str_replace. rewrite map_map. apply List.Forall_forall.
      intros c Hc. apply in_map_iff in Hc. destruct Hc as (x & <- & Hx).
      rewrite List.Forall_forall in Hname. specialize (Hname x Hx).
      destruct (x =? SPACE)%N eqn:E; [reflexivity |].
      destruct Hname as [Hn | ->]; [rewrite Hn |]; reflexivity. }
    unfold strip.
    rewrite (lstrip_all _ _ (re_sub_underscores_Forall _ _ Hm)).
    reflexivity.
Qed.

(** C10: [sanitize_filename] is idempotent. *)
Theorem sanitize_filename_idempotent (s : pystr) :
  sanitize_filename (sanitize_filename s) = sanitize_filename s.
Proof. apply sanitized_fixpoint, sanitize_filename_sanitized. Qed.

(** ** [truncate_title] *)

Lemma slice_end_nonneg (s : pystr) (e : Z) :
  (0 <= e <= len s)%Z -> slice_end s e = Z.to_nat e.
Proof.
  intros H. unfold slice_end.
  destruct (e <? 0)%Z eqn:E; [apply Z.ltb_lt in E; lia |].
  f_equal. lia.
Qed.

Lemma len_slice_to (s : pystr) (e : Z) :
  (0 <= e <= len s)%Z -> len (slice_to s e) = e.
Proof.
  intros H. unfold slice_to, len in *.
  rewrite length_firstn, (slice_end_nonneg s e H). unfold len in H. lia.
Qed.

Lemma slice_to_prefix (s : pystr) (e : Z) : exists rest, s = slice_to s e ++ rest.
Proof. exists (skipn (slice_end s e) s). unfold slice_to. symmetry. apply firstn_skipn. Qed.

Lemma rfind_from_bounds (c : N) (s : pystr) (i : Z) :
  rfind_from c s i = (-1)%Z \/ (i <= rfind_from c s i < i + len s)%Z.
Proof.
  revert i. induction s as [|x s IH]; intros i; [left; reflexivity |].
  simpl. unfold len in *. simpl length.
  destruct (IH (i + 1)%Z) as [-> | Hr].
  - simpl. destruct (x =? c)%N; [right; lia | left; reflexivity].
  - destruct (rfind_from c s (i + 1) =? -1)%Z eqn:E.
    + destruct (x =? c)%N; [right; lia | left; reflexivity].
    + right. lia.
Qed.

Lemma rfind_from_absent (c : N) (s : pystr) (i : Z) :
  ~ In c s -> rfind_from c s i = (-1)%Z.
Proof.
  revert i. induction s as [|x s IH]; intros i Hc; [reflexivity |].
  simpl. rewrite IH by (intros H; apply Hc; right; exact H). simpl.
  destruct (x =? c)%N eqn:E; [| reflexivity].
  apply N.eqb_eq in E. exfalso. apply Hc. left. exact E.
Qed.

Lemma truncate_title_prefix (title : pystr) (max_length : Z) :
  exists rest, title = truncate_title title max_length ++ rest.
Proof.
  unfold truncate_title.
  destruct (len title <=? max_length)%Z.
  - exists []. symmetry. apply app_nil_r.
  - destruct (negb _); apply slice_to_prefix.
Qed.

(** C5, as amended: for every string and every [max_length >= 0], the output
    of [truncate_title] is a prefix of the input and its length is at most
    [max_length]; when the input is longer than [max_length] and has no
    space among its first [max_length] characters, the output has exactly
    [max_length] characters. *)
Theorem truncate_title_bounded (title : pystr) (max_length : Z) :
  (0 <= max_length)%Z ->
  let out := truncate_title title max_length in
  (exists rest, title = out ++ rest)
  /\ (len out <= max_length)%Z
  /\ ((max_length < len title)%Z ->
      ~ In SPACE (firstn (Z.to_nat max_length) title) ->
      len out = max_length).
Proof.
  intros Hmax out. split; [apply truncate_title_prefix |].
  unfold out, truncate_title.
  destruct (len title <=? max_length)%Z eqn:Hle.
  - apply Z.leb_le in Hle. split; [exact Hle | lia].
  - apply Z.leb_gt in Hle.
    assert (Hcut : slice_to title max_length = firstn (Z.to_nat max_length) title).
    { unfold slice_to. rewrite slice_end_nonneg by lia. reflexivity. }
    assert (Hlen : len (slice_to title max_length) = max_length)
      by (apply len_slice_to; lia).
    unfold rfind.
    destruct (rfind_from_bounds SPACE (slice_to title max_length) 0) as [Hr | Hr].
    + rewrite Hr. simpl. split; [lia | intros _ _; exact Hlen].
    + destruct (rfind_from SPACE (slice_to title max_length) 0 =? -1)%Z eqn:E;
        simpl; [split; [lia | intros _ _; exact Hlen] |].
      rewrite len_slice_to by lia. split; [lia |].
      intros _ Hno. rewrite <- Hcut in Hno.
      rewrite (rfind_from_absent _ _ 0 Hno) in E. discriminate.
Qed.

(** The cut of "abcdefghi" at 4: no space, four characters kept. *)
Lemma truncate_title_bounded_witness :
  (0 <= 4)%Z
  /\ (4 < len (lit "abcdefghi"))%Z
  /\ ~ In SPACE (firstn (Z.to_nat 4) (lit "abcdefghi"))
  /\ len (truncate_title (lit "abcdefghi") 4) = 4%Z.
Proof.
  split; [lia |]. split; [reflexivity |].
  assert (Hno : ~ In SPACE (firstn (Z.to_nat 4) (lit "abcdefghi"))).
  { simpl. intros H. repeat (destruct H as [H | H]; [discriminate H |]). exact H. }
  split; [exact Hno |].
  exact (proj2 (proj2 (truncate_title_bounded (lit "abcdefghi") 4 ltac:(lia)))
               eq_refl Hno).
Defined.

(** C5 as stated fails for a negative [max_length]: [title[:-1]] drops the
    last character, and no string is at most [-1] characters long. *)
Lemma truncate_title_negative_max :
  truncate_title (lit "ab") (-1) = lit "a"
  /\ ~ (len (truncate_title (lit "ab") (-1)) <= -1)%Z.
Proof. split; [reflexivity |]. vm_compute. intros H. apply H. reflexivity. Qed.

(** ** [anki_connect] *)

(** Closes the cases of a case analysis on a reply: each side of an
    equivalence is broken up and settled by the constructors involved. *)
Ltac settle_cases :=
  repeat (split || intro);
  repeat match goal with
         | H : ex _ |- _ => destruct H
         | H : _ /\ _ |- _ => destruct H
         | H : _ \/ _ |- _ => destruct H
         end;
  try congruence; eauto.

(** C3 as stated fails: a reply whose ["error"] member is the empty string
    carries a non-null error, yet the call returns the result. *)
Lemma anki_connect_falsy_error :
  let reply : post_result Z :=
    Replied 200 (Some (Dict (Some (JStr [])) (Some 1%Z))) in
  transport_fails reply = false
  /\ error_member reply = Some (JStr [])
  /\ JStr [] <> JNull
  /\ anki_connect reply = inr 1%Z.
Proof. repeat split. discriminate. Qed.

(** C3, as amended: [anki_connect] raises its plain [Exception] if and only
    if the transport fails (connection error, HTTP status 400 to 599, or a
    body that is not JSON) or the decoded reply is an object whose ["error"]
    member is truthy; it returns [r] if and only if neither is the case and
    the reply is an object whose ["result"] member is [r].  A reply that is
    not an object raises [AttributeError], and an object without a
    ["result"] member raises [KeyError], when neither is the case. *)
Theorem anki_connect_outcome {R} (reply : post_result R) :
  ((exists m, anki_connect reply = inl (Exception m))
   <-> transport_fails reply = true \/ error_truthy reply = true)
  /\ (forall r, anki_connect reply = inr r
      <-> transport_fails reply = false /\ error_truthy reply = false
          /\ result_member reply = Some r)
  /\ (anki_connect reply = inl AttributeError
      <-> transport_fails reply = false /\ is_dict reply = false)
  /\ (anki_connect reply = inl (KeyError (lit "result"))
      <-> transport_fails reply = false /\ error_truthy reply = false
          /\ is_dict reply = true /\ result_member reply = None).
Proof.
  unfold error_truthy.
  destruct reply as [|status_code [[|error result]|]]; simpl;
    try destruct (raise_for_status status_code); simpl;
    try destruct (json_truthy (default JNull error)); simpl;
    try destruct result; settle_cases.
Qed.

(** ** [clean_field] *)

(** C9: [clean_field] returns the empty string on [None] and on the empty
    string; on the empty string this is what [strip] leaves of html2text's
    output, which consists of white space only. *)
Theorem clean_field_empty (handle : pystr -> pystr) :
  Forall (fun c => is_space c = true) (handle []) ->
  clean_field handle (Some []) = [] /\ clean_field handle None = [].
Proof.
  intros H. split; [| reflexivity].
  unfold clean_field, strip. rewrite (lstrip_all _ _ H). reflexivity.
Qed.

(** The hypothesis is needed: [strip] leaves nothing only of a string of
    white space. *)
Lemma strip_empty_only_if p s : strip p s = [] -> Forall (fun c => p c = true) s.
Proof.
  unfold strip. intros H.
  destruct (lstrip_suffix p s) as (k & Hk & Hall).
  destruct (rstrip_prefix p (lstrip p s)) as (k' & Hk' & Hall').
  rewrite H in Hk'. simpl in Hk'. rewrite Hk, Hk'.
  apply Forall_app. split; assumption.
Qed.

Lemma clean_field_empty_only_if (handle : pystr -> pystr) :
  clean_field handle (Some []) = [] -> Forall (fun c => is_space c = true) (handle []).
Proof. apply strip_empty_only_if. Qed.

(** A renderer that answers a line break to every input. *)
Lemma clean_field_empty_witness :
  let handle : pystr -> pystr := fun _ => [NL] in
  clean_field handle (Some []) = [] /\ clean_field handle None = [].
Proof.
  intros handle. apply (clean_field_empty handle).
  repeat constructor.
Defined.

(** ** Directories *)

Lemma sanitized_segment (s : pystr) : sanitized s -> segment s.
Proof.
  intros (Hall & _ & _ & _ & Hne). split; [exact Hne |].
  intros Hin. rewrite List.Forall_forall in Hall.
  specialize (Hall _ Hin). discriminate.
Qed.

Lemma segment_no_leading_sep (b : pystr) : segment b -> startswith_sep b = false.
Proof.
  intros [Hne Hno]. destruct b as [|c b]; [reflexivity |].
  simpl. apply N.eqb_neq. intros ->. apply Hno. left. reflexivity.
Qed.

Lemma segment_no_trailing_sep (p b : pystr) : segment b -> endswith_sep (p ++ b) = false.
Proof.
  intros [Hne Hno]. unfold endswith_sep. rewrite last_app.
  destruct (last b) as [c|] eqn:Hl.
  - apply N.eqb_neq. intros ->. apply Hno.
    apply list_elem_of_In. exact (last_Some_elem_of _ _ Hl).
  - apply last_None in Hl. contradiction.
Qed.

Lemma os_path_join_segments (segs : list pystr) (path : pystr) :
  path <> [] -> endswith_sep path = false -> Forall segment segs ->
  os_path_join path segs = path ++ concat (map (fun s => SLASH :: s) segs).
Proof.
  revert path. induction segs as [|b segs IH]; intros path Hne Hend Hsegs.
  - simpl. symmetry. apply app_nil_r.
  - inversion Hsegs as [|? ? Hb Hrest]; subst.
    simpl os_path_join.
    rewrite (segment_no_leading_sep _ Hb), Hend.
    apply truthy_nonempty in Hne. rewrite Hne. simpl negb. simpl orb.
    rewrite IH; [| | | exact Hrest].
    + simpl. rewrite <- List.app_assoc. reflexivity.
    + destruct path; discriminate.
    + change (endswith_sep (path ++ [SLASH] ++ b) = false).
      rewrite List.app_assoc. apply segment_no_trailing_sep, Hb.
Qed.

Lemma path_components_sep (a rest : pystr) :
  ~ In SLASH a ->
  path_components (a ++ SLASH :: rest) = a :: path_components rest.
Proof.
  induction a as [|c a IH]; intros Hno.
  - reflexivity.
  - simpl. destruct (c =? SLASH)%N eqn:E.
    + apply N.eqb_eq in E. exfalso. apply Hno. left. exact E.
    + rewrite IH by (intros H; apply Hno; right; exact H). reflexivity.
Qed.

Lemma path_components_segment (a : pystr) : ~ In SLASH a -> path_components a = [a].
Proof.
  induction a as [|c a IH]; intros Hno; [reflexivity |].
  simpl. destruct (c =? SLASH)%N eqn:E.
  - apply N.eqb_eq in E. exfalso. apply Hno. left. exact E.
  - rewrite IH by (intros H; apply Hno; right; exact H). reflexivity.
Qed.

Lemma path_components_joined (segs : list pystr) (a : pystr) :
  ~ In SLASH a -> Forall segment segs ->
  path_components (a ++ concat (map (fun s => SLASH :: s) segs)) = a :: segs.
Proof.
  revert a. induction segs as [|b segs IH]; intros a Ha Hsegs.
  - simpl. rewrite app_nil_r. apply path_components_segment, Ha.
  - inversion Hsegs as [|? ? [_ Hb] Hrest]; subst.
    simpl. rewrite (path_components_sep _ _ Ha).
    rewrite (IH b Hb Hrest). reflexivity.
Qed.

Lemma for_each_Forall {A S : Type} (P : event -> Prop)
    (body : S -> A -> list event * (exn + S)) (xs : list A) (st : S) :
  (forall st x, Forall P (fst (body st x))) ->
  Forall P (fst (for_each body xs st)).
Proof.
  intros Hbody. revert st. induction xs as [|x xs IH]; intros st; [constructor |].
  simpl. specialize (Hbody st x).
  destruct (body st x) as [tr [e | st']]; [exact Hbody |].
  specialize (IH st'). destruct (for_each body xs st') as [tr' r].
  simpl in *. apply Forall_app. split; assumption.
Qed.

Lemma process_note_no_MadeDirs handle dir st n :
  Forall (fun ev => is_MadeDirs ev = false) (fst (process_note handle dir st n)).
Proof.
  unfold process_note.
  destruct (truthy (default [] (fields n !! lit "Front"))); simpl.
  - repeat constructor.
  - destruct (title st); repeat constructor.
Qed.

(** C7 as stated fails on a deck name with an empty component: the three
    components of "A::::B" give a directory of two segments below the
    root. *)
Lemma directory_path_skips_empty_parts :
  split_dcolon (lit "A::::B") = [lit "A"; []; lit "B"]
  /\ path_components (directory_path (lit "A::::B")) = [output_dir; lit "A"; lit "B"]
  /\ directory_path (lit "A::::B")
     <> os_path_join output_dir (map sanitize_filename (split_dcolon (lit "A::::B"))).
Proof. repeat split. vm_compute. discriminate. Qed.

(** C7, as amended: the directory the exporter creates for a deck is the
    output root joined with one sanitized path segment per non-empty
    "::"-separated component of the deck name, in order; the deck loop
    creates no other directory, and creates this one when the deck has
    notes. *)
Theorem directory_path_mirrors (handle : pystr -> pystr) (srv : server)
    (title0 : option pystr) (deck_name : pystr) :
  let parts := List.filter truthy (split_dcolon deck_name) in
  let events := fst (process_deck handle srv title0 deck_name) in
  path_components (directory_path deck_name)
  = output_dir :: map sanitize_filename parts
  /\ directory_path deck_name
     = output_dir ++ concat (map (fun p => SLASH :: sanitize_filename p) parts)
  /\ (forall p, In (MadeDirs p) events -> p = directory_path deck_name)
  /\ (forall notes, get_notes_in_deck srv deck_name = inr notes -> notes <> [] ->
      In (MadeDirs (directory_path deck_name)) events).
Proof.
  intros parts events.
  assert (Hsegs : Forall segment (map sanitize_filename parts)).
  { apply List.Forall_forall. intros s Hs. apply in_map_iff in Hs.
    destruct Hs as (x & <- & _).
    apply sanitized_segment, sanitize_filename_sanitized. }
  assert (Hroot : ~ In SLASH output_dir).
  { unfold output_dir. simpl. intros H.
    repeat (destruct H as [H | H]; [discriminate H |]). exact H. }
  assert (Hjoin : directory_path deck_name
                  = output_dir ++ concat (map (fun p => SLASH :: sanitize_filename p) parts)).
  { unfold directory_path. fold parts.
    rewrite os_path_join_segments; [| discriminate | reflexivity | exact Hsegs].
    rewrite map_map. reflexivity. }
  split; [| split; [exact Hjoin | split]].
  - rewrite Hjoin, <- (map_map sanitize_filename (fun s => SLASH :: s)).
    apply path_components_joined; assumption.
  - intros p. unfold events, process_deck.
    destruct (get_notes_in_deck srv deck_name) as [e | notes]; simpl.
    + intros [H | []]. discriminate.
    + destruct (truthy notes); simpl.
      * pose proof (for_each_Forall (fun ev => is_MadeDirs ev = false)
                      (process_note handle (directory_path deck_name)) notes
                      {| title := title0; title_counts := ∅ |}
                      (process_note_no_MadeDirs handle _)) as Hno.
        destruct (for_each _ notes _) as [tr r]. simpl in *.
        intros [H | [H | H]]; [discriminate | congruence |].
        rewrite List.Forall_forall in Hno. specialize (Hno _ H). discriminate.
      * intros [H | [H | []]]; discriminate.
  - intros notes Hnotes Hne. unfold events, process_deck. rewrite Hnotes.
    apply truthy_nonempty in Hne. rewrite Hne. simpl.
    destruct (for_each _ notes _) as [tr r]. simpl. right. left. reflexivity.
Qed.

(** ** The exporter *)

(** C8: when the client returns an empty list of decks, the run prints the
    "no decks" notice and does nothing else: no directory is created and no
    file is opened or written. *)
Theorem main_no_decks (handle : pystr -> pystr) (srv : server) :
  get_deck_names srv = inr [] ->
  main handle srv = [Printed (lit "No decks found in Anki.")]
  /\ Forall (fun ev => touches_fs ev = false) (main handle srv).
Proof.
  intros H. unfold main. rewrite H. simpl.
  split; [reflexivity | repeat constructor].
Qed.

(** A server whose reply to "deckNames" is the empty list. *)
Lemma main_no_decks_witness :
  get_deck_names srv_no_decks = inr []
  /\ main (fun field => field) srv_no_decks = [Printed (lit "No decks found in Anki.")]
  /\ Forall (fun ev => touches_fs ev = false) (main (fun field => field) srv_no_decks).
Proof.
  split; [reflexivity |].
  apply (main_no_decks (fun field => field) srv_no_decks). reflexivity.
Defined.

(** The run depends on html2text only through what [clean_field] makes of
    the fields. *)
Lemma for_each_ext {A S : Type} (body body' : S -> A -> list event * (exn + S))
    (xs : list A) (st : S) :
  (forall st x, body st x = body' st x) ->
  for_each body xs st = for_each body' xs st.
Proof.
  intros H. revert st. induction xs as [|x xs IH]; intros st; [reflexivity |].
  simpl. rewrite H. destruct (body' st x) as [tr [e | st']]; [reflexivity |].
  rewrite IH. reflexivity.
Qed.

Section Rendering.
Variables handle handle' : pystr -> pystr.
Hypothesis same_rendering :
  forall field, clean_field handle (Some field) = clean_field handle' (Some field).

Lemma process_note_ext dir st n :
  process_note handle dir st n = process_note handle' dir st n.
Proof. unfold process_note. rewrite !same_rendering. reflexivity. Qed.

Lemma process_deck_ext srv title0 deck_name :
  process_deck handle srv title0 deck_name = process_deck handle' srv title0 deck_name.
Proof.
  unfold process_deck.
  destruct (get_notes_in_deck srv deck_name) as [e | notes]; [reflexivity |].
  rewrite (for_each_ext _ _ notes _ (process_note_ext _)). reflexivity.
Qed.

Lemma main_ext srv : main handle srv = main handle' srv.
Proof.
  unfold main. destruct (get_deck_names srv) as [e | deck_names]; [reflexivity |].
  rewrite (for_each_ext _ _ deck_names _ (process_deck_ext srv)). reflexivity.
Qed.

Lemma base_filename_of_ext n : base_filename_of handle n = base_filename_of handle' n.
Proof. unfold base_filename_of. rewrite same_rendering. reflexivity. Qed.
End Rendering.

Lemma str_eqb_eq (a b : pystr) : str_eqb a b = true <-> a = b.
Proof.
  revert b. induction a as [|x a IH]; intros [|y b]; simpl; split;
    try congruence; try reflexivity.
  - intros H. apply andb_true_iff in H. destruct H as [Hx Hab].
    apply N.eqb_eq in Hx. apply IH in Hab. congruence.
  - intros [= -> ->]. rewrite N.eqb_refl. apply IH. reflexivity.
Qed.

Lemma handle_with_same_rendering handle text rendered :
  clean_field handle (Some text) = strip is_space rendered ->
  forall field,
    clean_field handle (Some field)
    = clean_field (handle_with handle text rendered) (Some field).
Proof.
  intros H field. unfold clean_field, handle_with in *.
  destruct (str_eqb field text) eqn:E; [| reflexivity].
  apply str_eqb_eq in E. subst field. exact H.
Qed.

(** C1: the heading of a note without a "Front" field is not "Note_<id>".
    [title] is assigned only when the note has a front, so on a first note
    without one the file is opened and the run stops before anything is
    written to it; after a note with a front, the heading repeats the title
    [t] of that earlier note. *)
Theorem frontless_note_heading (handle : pystr -> pystr) :
  main handle (srv_one_deck (lit "D") [note_without_front 7])
  = [ MadeDirs (lit "markdown_output");
      Printed (lit "Processing deck: D");
      MadeDirs (lit "markdown_output/D");
      Opened (lit "markdown_output/D/Note_7.md");
      PrintedError (UnboundLocalError (lit "title")) ]
  /\ (forall (dir t : pystr) (id : Z),
       let path :=
         os_path_join dir [sanitize_filename (lit "Note_" ++ str_int id) ++ lit ".md"] in
       fst (process_note handle dir {| title := Some t; title_counts := ∅ |}
                         (note_without_front id))
       = [ Opened path;
           Wrote path (lit "# " ++ t ++ [NL; NL] ++ [] ++ [NL]);
           Printed (lit "Saved note " ++ str_int id ++ lit " to " ++ path) ]).
Proof.
  split; [vm_compute; reflexivity |].
  intros dir t id path. unfold process_note, note_without_front. simpl.
  rewrite !lookup_empty. simpl. rewrite lookup_empty. reflexivity.
Qed.

(** C2: two notes of one deck are written to the same path.  With fronts
    "a", "a 1" and "a", the second note takes [a_1.md] as its own name and
    the third takes it as the suffixed name of the second "a". *)
Theorem suffixed_name_collides (handle : pystr -> pystr) :
  clean_field handle (Some (lit "a")) = lit "a" ->
  clean_field handle (Some (lit "a 1")) = lit "a 1" ->
  opened_paths
    (main handle
       (srv_one_deck (lit "D")
          [note_with_front 1 (lit "a"); note_with_front 2 (lit "a 1");
           note_with_front 3 (lit "a")]))
  = [ lit "markdown_output/D/a.md";
      lit "markdown_output/D/a_1.md";
      lit "markdown_output/D/a_1.md" ].
Proof.
  intros Ha Ha1.
  pose proof (handle_with_same_rendering handle (lit "a") (lit "a") Ha) as Hsame.
  rewrite (main_ext handle _ Hsame).
  rewrite Hsame in Ha1.
  rewrite (main_ext _ _ (handle_with_same_rendering _ (lit "a 1") (lit "a 1") Ha1)).
  vm_compute. reflexivity.
Qed.

(** The same run with a renderer that appends a blank line to the text. *)
Lemma suffixed_name_collides_witness :
  let handle : pystr -> pystr := fun field => field ++ [NL; NL] in
  opened_paths
    (main handle
       (srv_one_deck (lit "D")
          [note_with_front 1 (lit "a"); note_with_front 2 (lit "a 1");
           note_with_front 3 (lit "a")]))
  = [ lit "markdown_output/D/a.md";
      lit "markdown_output/D/a_1.md";
      lit "markdown_output/D/a_1.md" ].
Proof.
  intros handle. apply (suffixed_name_collides handle); reflexivity.
Defined.

(** C6: two notes of one deck derive the base name "Note_7", and the
    exporter assigns one file name, not two: the first note has no front, no
    title was assigned before it, and the run stops at its file.  (The
    defect is the one of C1.) *)
Theorem same_base_run_stops (handle : pystr -> pystr) :
  clean_field handle (Some (lit "Note 7")) = lit "Note 7" ->
  let notes := [note_without_front 7; note_with_front 8 (lit "Note 7")] in
  Forall (fun n => base_filename_of handle n = lit "Note_7") notes
  /\ main handle (srv_one_deck (lit "D") notes)
     = [ MadeDirs (lit "markdown_output");
         Printed (lit "Processing deck: D");
         MadeDirs (lit "markdown_output/D");
         Opened (lit "markdown_output/D/Note_7.md");
         PrintedError (UnboundLocalError (lit "title")) ].
Proof.
  intros H notes.
  pose proof (handle_with_same_rendering handle (lit "Note 7") (lit "Note 7") H) as Hsame.
  split.
  - unfold notes. repeat constructor.
    rewrite (base_filename_of_ext handle _ Hsame). vm_compute. reflexivity.
  - vm_compute. reflexivity.
Qed.

(** The same run with a renderer that appends a blank line to the text:
    one path is opened. *)
Lemma same_base_run_stops_witness :
  let handle : pystr -> pystr := fun field => field ++ [NL; NL] in
  let notes := [note_without_front 7; note_with_front 8 (lit "Note 7")] in
  Forall (fun n => base_filename_of handle n = lit "Note_7") notes
  /\ opened_paths (main handle (srv_one_deck (lit "D") notes))
     = [lit "markdown_output/D/Note_7.md"].
Proof.
  intros handle notes.
  destruct (same_base_run_stops handle eq_refl) as [Hbase Hrun].
  split; [exact Hbase |]. fold notes in Hrun. rewrite Hrun. reflexivity.
Defined.

(** ** What the note loop does when it does not stop *)

Lemma nth_filename_count (base : pystr) (count : nat) :
  (if 0 <? count then base ++ lit "_" ++ str_nat count ++ lit ".md"
   else base ++ lit ".md")
  = nth_filename base count.
Proof. destruct count; reflexivity. Qed.

(** One iteration of the note loop, in terms of the note's base name. *)
Lemma process_note_outcome handle dir st n :
  process_note handle dir st n =
  let front := default [] (fields n !! lit "Front") in
  let back := default [] (fields n !! lit "Back") in
  let base := base_filename_of handle n in
  let count := default 0 (title_counts st !! base) in
  let path := os_path_join dir [nth_filename base count] in
  match (if truthy front then Some (clean_field handle (Some front)) else title st) with
  | None => ([Opened path], inl (UnboundLocalError (lit "title")))
  | Some t =>
      ([Opened path;
        Wrote path (lit "# " ++ t ++ [NL; NL]
                    ++ (if truthy back then clean_field handle (Some back) else [])
                    ++ [NL]);
        Printed (lit "Saved note " ++ str_note_id (noteId n) ++ lit " to " ++ path)],
       inr {| title := Some t; title_counts := <[base := count + 1]> (title_counts st) |})
  end.
Proof.
  unfold process_note, base_filename_of.
  destruct (truthy (default [] (fields n !! lit "Front"))) eqn:Hfront;
    cbv zeta; rewrite nth_filename_count.
  - reflexivity.
  - destruct (title st); reflexivity.
Qed.

(** The part of C1 that holds: a note with a non-empty "Front" field gets
    a file that holds "# ", the rendered front in full, a blank line, the
    rendered back (nothing when there is no back) and a line end. *)
Lemma note_with_front_written handle dir st n front :
  fields n !! lit "Front" = Some front -> front <> [] ->
  exists path,
    fst (process_note handle dir st n)
    = [ Opened path;
        Wrote path
          (lit "# " ++ clean_field handle (Some front) ++ [NL; NL]
           ++ match fields n !! lit "Back" with
              | Some (c :: back) => clean_field handle (Some (c :: back))
              | _ => []
              end
           ++ [NL]);
        Printed (lit "Saved note " ++ str_note_id (noteId n) ++ lit " to " ++ path) ].
Proof.
  intros Hfront Hne. rewrite process_note_outcome. cbv zeta.
  rewrite Hfront. simpl default at 1 2.
  apply truthy_nonempty in Hne. rewrite Hne.
  eexists. simpl fst. repeat f_equal.
  destruct (fields n !! lit "Back") as [[|c back]|]; reflexivity.
Qed.

Lemma opened_paths_app tr tr' :
  opened_paths (tr ++ tr') = opened_paths tr ++ opened_paths tr'.
Proof. unfold opened_paths. apply flat_map_app. Qed.

Lemma opened_paths_cons ev tr :
  opened_paths (ev :: tr)
  = match ev with Opened p => p :: opened_paths tr | _ => opened_paths tr end.
Proof. destruct ev; reflexivity. Qed.

(** The part of C6 that holds: when every note of the list derives the
    base name [base] and the loop can write the first one, the notes get
    the names [base.md], [base_1.md], ... in order, counting on from the
    number of earlier notes of that name. *)
Lemma same_base_filenames handle dir base notes st :
  Forall (fun n => base_filename_of handle n = base) notes ->
  can_write st notes ->
  opened_paths (fst (for_each (process_note handle dir) notes st))
  = map (fun k => os_path_join dir [nth_filename base k])
        (seq (default 0 (title_counts st !! base)) (length notes)).
Proof.
  intros Hbase. revert st.
  induction Hbase as [|n notes Hn _ IH]; intros st Hw; [reflexivity |].
  simpl for_each. rewrite process_note_outcome. cbv zeta. rewrite Hn.
  destruct (if truthy (default [] (fields n !! lit "Front"))
            then Some (clean_field handle (Some (default [] (fields n !! lit "Front"))))
            else title st) as [t|] eqn:Ht.
  - match goal with
    | |- context [for_each _ notes ?st'] =>
        specialize (IH st'); destruct (for_each (process_note handle dir) notes st')
          as [tr' r]
    end.
    cbn [fst app title_counts] in *.
    rewrite !opened_paths_cons, IH by (left; discriminate).
    rewrite lookup_insert_eq. cbn [default length seq map].
    rewrite Nat.add_1_r. reflexivity.
  - exfalso. destruct Hw as [Hw | Hw].
    + destruct (truthy _); [discriminate | contradiction].
    + simpl in Hw. rewrite Hw in Ht. discriminate.
Qed.

Lemma lit_inj (s s' : string) : lit s = lit s' -> s = s'.
Proof.
  unfold lit. intros H.
  rewrite <- (string_of_list_ascii_of_string s),
          <- (string_of_list_ascii_of_string s').
  f_equal. revert H.
  generalize (list_ascii_of_string s) (list_ascii_of_string s').
  intros l. induction l as [|a l IH]; intros [|a' l']; simpl; try congruence.
  intros [= Ha Hl]. f_equal; [| exact (IH _ Hl)].
  rewrite <- (ascii_N_embedding a), <- (ascii_N_embedding a'). congruence.
Qed.

Lemma nth_filename_inj (base : pystr) (k k' : nat) :
  nth_filename base k = nth_filename base k' -> k = k'.
Proof.
  destruct k as [|k], k' as [|k']; simpl; intros H;
    apply app_inv_head in H; try reflexivity; try discriminate.
  injection H as H. apply app_inv_tail in H.
  apply lit_inj in H. exact (inj pretty _ _ H).
Qed.

(** The names [base.md], [base_1.md], ... are distinct. *)
Lemma nth_filenames_distinct (base : pystr) (start count : nat) :
  List.NoDup (map (nth_filename base) (seq start count)).
Proof.
  apply Finite.Injective_map_NoDup_in; [| apply seq_NoDup].
  intros k k' _ _. apply nth_filename_inj.
Qed.

(** * Further properties *)

(** ** [truncate_title] *)

Lemma rfind_from_missing (c : N) (s : pystr) (i : Z) :
  (0 <= i)%Z -> rfind_from c s i = (-1)%Z -> forall j, s !! j <> Some c.
Proof.
  revert i. induction s as [|x s IH]; intros i Hi H j; [discriminate |].
  simpl in H.
  destruct (rfind_from_bounds c s (i + 1)) as [Hr | Hr].
  - rewrite Hr in H. simpl in H.
    destruct (x =? c)%N eqn:E; [lia |]. apply N.eqb_neq in E.
    destruct j as [|j]; simpl; [congruence |].
    apply (IH (i + 1)%Z); [lia | exact Hr].
  - destruct (rfind_from c s (i + 1) =? -1)%Z eqn:E'; [| lia].
    apply Z.eqb_eq in E'. lia.
Qed.

Lemma rfind_from_found (c : N) (s : pystr) (i : Z) :
  (0 <= i)%Z -> rfind_from c s i <> (-1)%Z ->
  exists k : nat,
    rfind_from c s i = (i + Z.of_nat k)%Z
    /\ s !! k = Some c
    /\ forall j, k < j -> s !! j <> Some c.
Proof.
  revert i. induction s as [|x s IH]; intros i Hi H; [contradiction |].
  simpl in *.
  destruct (rfind_from c s (i + 1) =? -1)%Z eqn:E.
  - apply Z.eqb_eq in E.
    destruct (x =? c)%N eqn:Ex; [| contradiction].
    apply N.eqb_eq in Ex. exists 0. repeat split.
    + lia.
    + simpl. congruence.
    + intros [|j] Hj; [lia |]. simpl.
      apply (rfind_from_missing c s (i + 1)); [lia | exact E].
  - apply Z.eqb_neq in E.
    destruct (IH (i + 1)%Z ltac:(lia) E) as (k & Hk & Hat & Hafter).
    exists (S k). repeat split.
    + lia.
    + exact Hat.
    + intros [|j] Hj; [lia |]. simpl. apply Hafter. lia.
Qed.

Lemma truncate_title_len (title : pystr) (max_length : Z) :
  (0 <= max_length)%Z -> (len (truncate_title title max_length) <= max_length)%Z.
Proof.
  intros Hmax. unfold truncate_title.
  destruct (len title <=? max_length)%Z eqn:Hle; [apply Z.leb_le, Hle |].
  apply Z.leb_gt in Hle. unfold rfind.
  assert (Hlen : len (slice_to title max_length) = max_length)
    by (apply len_slice_to; lia).
  destruct (rfind_from_bounds SPACE (slice_to title max_length) 0) as [Hr | Hr].
  - rewrite Hr. simpl. lia.
  - destruct (rfind_from SPACE (slice_to title max_length) 0 =? -1)%Z;
      simpl; [lia |].
    rewrite len_slice_to by lia. lia.
Qed.

(** X1: truncating a title that was truncated to the same non-negative
    length changes nothing. *)
Theorem truncate_title_idempotent (title : pystr) (max_length : Z) :
  (0 <= max_length)%Z ->
  truncate_title (truncate_title title max_length) max_length
  = truncate_title title max_length.
Proof.
  intros Hmax. pose proof (truncate_title_len title max_length Hmax) as Hlen.
  unfold truncate_title at 1.
  apply Z.leb_le in Hlen. rewrite Hlen. reflexivity.
Qed.

(** The cut of "abc def ghi" at 9, cut again at 9. *)
Lemma truncate_title_idempotent_witness :
  (0 <= 9)%Z
  /\ truncate_title (truncate_title (lit "abc def ghi") 9) 9
     = truncate_title (lit "abc def ghi") 9.
Proof. split; [lia |]. apply truncate_title_idempotent. lia. Defined.

(** X2: when the title is longer than [max_length] and has a space among
    its first [max_length] characters, the result is the title up to the
    last such space: the character after the result is a space, and no
    space stands between it and position [max_length]. *)
Theorem truncate_title_last_space (title : pystr) (max_length : Z) (j0 : nat) :
  (max_length < len title)%Z ->
  (Z.of_nat j0 < max_length)%Z -> title !! j0 = Some SPACE ->
  let out := truncate_title title max_length in
  out = firstn (length out) title
  /\ title !! length out = Some SPACE
  /\ (Z.of_nat (length out) < max_length)%Z
  /\ (forall j, length out < j -> (Z.of_nat j < max_length)%Z ->
      title !! j <> Some SPACE).
Proof.
  intros Hlong Hj0 Hsp out.
  assert (Hmax : (0 <= max_length)%Z) by lia.
  assert (Hcut : slice_to title max_length = firstn (Z.to_nat max_length) title).
  { unfold slice_to. rewrite slice_end_nonneg by lia. reflexivity. }
  assert (Hfound : rfind_from SPACE (slice_to title max_length) 0 <> (-1)%Z).
  { intros H. apply (rfind_from_missing _ _ 0 ltac:(lia) H j0).
    rewrite Hcut, lookup_take_lt by lia. exact Hsp. }
  destruct (rfind_from_found _ _ 0 ltac:(lia) Hfound) as (k & Hk & Hat & Hafter).
  assert (Hklt : k < Z.to_nat max_length).
  { apply lookup_lt_Some in Hat. rewrite Hcut, length_take in Hat. lia. }
  assert (Hout : out = firstn k title).
  { unfold out, truncate_title.
    apply Z.leb_gt in Hlong. rewrite Hlong. unfold rfind.
    apply Z.eqb_neq in Hfound. rewrite Hfound. simpl. rewrite Hk.
    unfold slice_to. rewrite slice_end_nonneg by (unfold len in *; lia).
    f_equal. lia. }
  assert (Hlen : length out = k).
  { rewrite Hout, length_take. unfold len in Hlong. lia. }
  rewrite Hlen. repeat split.
  - exact Hout.
  - rewrite Hcut, lookup_take_lt in Hat by lia. exact Hat.
  - lia.
  - intros j Hkj Hjm. specialize (Hafter j Hkj).
    rewrite Hcut, lookup_take_lt in Hafter by lia. exact Hafter.
Qed.

(** "abc def ghi" cut at 9: the last space among the first nine characters
    is the one at position 7. *)
Lemma truncate_title_last_space_witness :
  truncate_title (lit "abc def ghi") 9 = lit "abc def"
  /\ lit "abc def ghi" !! length (truncate_title (lit "abc def ghi") 9) = Some SPACE.
Proof.
  split; [reflexivity |].
  exact (proj1 (proj2 (truncate_title_last_space (lit "abc def ghi") 9 3
                         eq_refl eq_refl eq_refl))).
Defined.

(** ** [clean_field] *)

Lemma strip_head p s c : head (strip p s) = Some c -> p c = false.
Proof.
  unfold strip. intros H.
  destruct (rstrip p (lstrip p s)) as [|x r] eqn:Hr; [discriminate |].
  rewrite <- Hr in H. rewrite rstrip_head in H by (rewrite Hr; discriminate).
  exact (lstrip_head _ _ _ H).
Qed.

(** X3: what [clean_field] returns is html2text's output without the white
    space around it: it neither starts nor ends with white space, and only
    white space was removed before and after it. *)
Theorem clean_field_stripped (handle : pystr -> pystr) (field : pystr) :
  let out := clean_field handle (Some field) in
  (forall c, head out = Some c -> is_space c = false)
  /\ (forall c, last out = Some c -> is_space c = false)
  /\ exists before after,
       handle field = before ++ out ++ after
       /\ Forall (fun c => is_space c = true) before
       /\ Forall (fun c => is_space c = true) after.
Proof.
  intros out. unfold out, clean_field. repeat split.
  - apply strip_head.
  - unfold strip. apply rstrip_last.
  - unfold strip.
    destruct (lstrip_suffix is_space (handle field)) as (before & Hb & Hball).
    destruct (rstrip_prefix is_space (lstrip is_space (handle field)))
      as (after & Ha & Haall).
    exists before, after. repeat split; try assumption.
    rewrite <- Ha. exact Hb.
Qed.

Lemma truncate_title_nonempty (title : pystr) (max_length : Z) :
  (0 < max_length)%Z -> head title <> Some SPACE -> title <> [] ->
  truncate_title title max_length <> [].
Proof.
  intros Hmax Hhd Hne. unfold truncate_title.
  destruct (len title <=? max_length)%Z eqn:Hle; [exact Hne |].
  apply Z.leb_gt in Hle. unfold rfind.
  assert (Hcut : slice_to title max_length = firstn (Z.to_nat max_length) title).
  { unfold slice_to. rewrite slice_end_nonneg by lia. reflexivity. }
  destruct (rfind_from SPACE (slice_to title max_length) 0 =? -1)%Z eqn:E; simpl.
  - intros H. apply (f_equal len) in H. rewrite len_slice_to in H by lia.
    unfold len in H. simpl in H. lia.
  - apply Z.eqb_neq in E.
    destruct (rfind_from_found _ _ 0 ltac:(lia) E) as (k & Hk & Hat & _).
    assert (Hklt : k < Z.to_nat max_length).
    { apply lookup_lt_Some in Hat. rewrite Hcut, length_take in Hat. lia. }
    rewrite Hcut, lookup_take_lt in Hat by lia.
    rewrite Hk. intros H. apply (f_equal len) in H.
    rewrite len_slice_to in H by (unfold len in *; lia).
    unfold len in H. simpl in H.
    assert (k = 0) by lia. subst k.
    apply Hhd. destruct title; [discriminate | exact Hat].
Qed.

(** X4: the title the file name is made from is empty only when the
    rendered front is: a rendered front does not start with a space, so the
    cut at 200 characters never falls at position 0. *)
Theorem truncated_title_empty_iff (handle : pystr -> pystr) (front : pystr) :
  truncate_title (clean_field handle (Some front)) 200 = []
  <-> clean_field handle (Some front) = [].
Proof.
  split.
  - intros H.
    destruct (clean_field handle (Some front)) as [|c t] eqn:Ht; [reflexivity |].
    exfalso. revert H. apply truncate_title_nonempty; [lia | | discriminate].
    intros Hc. rewrite <- Ht in Hc.
    pose proof (strip_head is_space (handle front) SPACE Hc). discriminate.
  - intros ->. reflexivity.
Qed.

(** ** [sanitize_filename] *)

(** X5: the strings [sanitize_filename] leaves as they are are exactly the
    non-empty strings of allowed characters that have no two underscores in
    a row and no underscore at either end. *)
Theorem sanitize_filename_fixed_points (s : pystr) :
  sanitize_filename s = s <-> sanitized s.
Proof.
  split.
  - intros H. rewrite <- H. apply sanitize_filename_sanitized.
  - apply sanitized_fixpoint.
Qed.

Lemma keep_or_underscore_replace (c : N) :
  keep_or_underscore (if (c =? SPACE)%N then UNDERSCORE else c) = keep_or_underscore c.
Proof.
  destruct (c =? SPACE)%N eqn:E; [| reflexivity].
  apply N.eqb_eq in E. subst c. reflexivity.
Qed.

Lemma keep_or_underscore_idem (c : N) :
  keep_or_underscore (keep_or_underscore c) = keep_or_underscore c.
Proof.
  unfold keep_or_underscore. destruct (allowed_char c) eqn:E; [rewrite E |]; reflexivity.
Qed.

(** The result depends on the name only through what the character class
    makes of each character. *)
Lemma sanitize_filename_by_class (s : pystr) :
  sanitize_filename s
  = (let kept := strip is_underscore (re_sub_underscores (map keep_or_underscore s)) in
     if truthy kept then kept else unnamed).
Proof.
  unfold sanitize_filename, str_replace. cbv zeta.
  rewrite map_map.
  rewrite (map_ext _ keep_or_underscore) by (intros c; apply keep_or_underscore_replace).
  reflexivity.
Qed.

(** X6: two names that differ only in characters outside the allow-list
    (spaces, punctuation, ...) or in underscores standing for them get the
    same file name. *)
Theorem sanitize_filename_same_class (s s' : pystr) :
  map keep_or_underscore s = map keep_or_underscore s' ->
  sanitize_filename s = sanitize_filename s'.
Proof. intros H. rewrite !sanitize_filename_by_class, H. reflexivity. Qed.

(** "a b", "a?b" and "a_b" are one file name. *)
Lemma sanitize_filename_same_class_witness :
  sanitize_filename (lit "a b") = sanitize_filename (lit "a?b")
  /\ sanitize_filename (lit "a?b") = sanitize_filename (lit "a_b").
Proof.
  split; apply sanitize_filename_same_class; reflexivity.
Defined.

Lemma re_sub_underscores_length (s : pystr) :
  length (re_sub_underscores s) <= length s.
Proof.
  induction s as [|c s IH]; [reflexivity |].
  simpl. destruct (is_underscore c).
  - destruct s as [|c' s]; [reflexivity |].
    destruct (is_underscore c'); simpl in *; lia.
  - simpl. lia.
Qed.

Lemma strip_length p (s : pystr) : length (strip p s) <= length s.
Proof.
  unfold strip.
  destruct (lstrip_suffix p s) as (k & Hk & _).
  destruct (rstrip_prefix p (lstrip p s)) as (k' & Hk' & _).
  apply (f_equal (@length N)) in Hk, Hk'. rewrite length_app in Hk, Hk'. lia.
Qed.

Lemma sanitize_filename_length (s : pystr) :
  length (sanitize_filename s) <= Nat.max (length s) 7.
Proof.
  rewrite sanitize_filename_by_class. cbv zeta.
  destruct (truthy _).
  - pose proof (strip_length is_underscore
                  (re_sub_underscores (map keep_or_underscore s))) as H1.
    pose proof (re_sub_underscores_length (map keep_or_underscore s)) as H2.
    rewrite length_map in H2. lia.
  - simpl. lia.
Qed.

(** X7: the base name made from a title cut at [max_length >= 7] has at
    most [max_length] characters; sanitizing never makes a name longer,
    apart from the placeholder "unnamed". *)
Theorem base_filename_length (title : pystr) (max_length : Z) :
  (7 <= max_length)%Z ->
  (len (sanitize_filename (truncate_title title max_length)) <= max_length)%Z.
Proof.
  intros Hmax.
  pose proof (truncate_title_len title max_length ltac:(lia)) as Ht.
  pose proof (sanitize_filename_length (truncate_title title max_length)) as Hs.
  unfold len in *. lia.
Qed.

(** The length the exporter uses, 200. *)
Lemma base_filename_length_witness :
  (7 <= 200)%Z
  /\ (len (sanitize_filename (truncate_title (lit "What is 2 + 2?") 200)) <= 200)%Z.
Proof.
  split; [lia |]. apply base_filename_length. lia.
Defined.

(** ** Paths and deck names *)

Lemma path_components_some (p : pystr) : path_components p <> [].
Proof.
  destruct p as [|c p]; simpl; [discriminate |].
  destruct (c =? SLASH)%N; [discriminate |].
  destruct (path_components p); discriminate.
Qed.

Lemma path_components_app_sep (a b : pystr) :
  path_components (a ++ SLASH :: b) = path_components a ++ path_components b.
Proof.
  induction a as [|c a IH]; [reflexivity |].
  simpl. destruct (c =? SLASH)%N; rewrite IH; [reflexivity |].
  pose proof (path_components_some a) as Hne.
  destruct (path_components a); [contradiction | reflexivity].
Qed.

(** X8: joining path segments onto a root and splitting the result at the
    separators gives the root's components followed by the segments: the
    joined names are found again, one component each. *)
Theorem os_path_join_components (root : pystr) (segs : list pystr) :
  root <> [] -> endswith_sep root = false -> Forall segment segs ->
  path_components (os_path_join root segs) = path_components root ++ segs.
Proof.
  intros Hne Hend Hsegs.
  rewrite os_path_join_segments by assumption.
  destruct Hsegs as [|b segs [_ Hb] Hrest].
  - simpl. rewrite !app_nil_r. reflexivity.
  - simpl. rewrite path_components_app_sep.
    rewrite (path_components_joined segs b Hb Hrest). reflexivity.
Qed.

(** "out/sub" joined with "a.md". *)
Lemma os_path_join_components_witness :
  path_components (os_path_join (lit "out/sub") [lit "a.md"])
  = [lit "out"; lit "sub"; lit "a.md"].
Proof.
  apply (os_path_join_components (lit "out/sub") [lit "a.md"]).
  - discriminate.
  - reflexivity.
  - repeat constructor; [discriminate |].
    simpl. intros H. repeat (destruct H as [H | H]; [discriminate H |]). exact H.
Defined.

Lemma split_dcolon_from_some (cur s : pystr) : split_dcolon_from cur s <> [].
Proof.
  revert cur. induction s as [|c s IH]; intros cur; simpl; [discriminate |].
  destruct s as [|c' s]; [discriminate |].
  destruct ((c =? COLON) && (c' =? COLON))%N; [discriminate | apply IH].
Qed.

Lemma split_dcolon_from_step (cur : pystr) (c c' : N) (s : pystr) :
  split_dcolon_from cur (c :: c' :: s)
  = if ((c =? COLON) && (c' =? COLON))%N then cur :: split_dcolon_from [] s
    else split_dcolon_from (cur ++ [c]) (c' :: s).
Proof. reflexivity. Qed.

Lemma str_join_cons (sep p : pystr) (ps : list pystr) :
  ps <> [] -> str_join sep (p :: ps) = p ++ sep ++ str_join sep ps.
Proof. destruct ps; [contradiction | reflexivity]. Qed.

Lemma split_dcolon_from_join (s : pystr) :
  (forall cur, str_join [COLON; COLON] (split_dcolon_from cur s) = cur ++ s)
  /\ (forall c cur,
        str_join [COLON; COLON] (split_dcolon_from cur (c :: s)) = cur ++ c :: s).
Proof.
  induction s as [|x s [IH1 IH2]].
  - split; intros; simpl; [apply eq_sym, app_nil_r | reflexivity].
  - split; [intros cur; apply IH2 |].
    intros c cur. rewrite split_dcolon_from_step.
    destruct ((c =? COLON) && (x =? COLON))%N eqn:E.
    + apply andb_true_iff in E. destruct E as [Ec Ex].
      apply N.eqb_eq in Ec, Ex. subst c x.
      rewrite str_join_cons by apply split_dcolon_from_some.
      rewrite IH1. reflexivity.
    + rewrite IH2. rewrite <- List.app_assoc. reflexivity.
Qed.

(** X9: the "::"-separated parts of a deck name, joined with "::" again,
    are the deck name; there is always at least one part. *)
Theorem split_dcolon_join (deck_name : pystr) :
  str_join [COLON; COLON] (split_dcolon deck_name) = deck_name
  /\ split_dcolon deck_name <> [].
Proof.
  split.
  - exact (proj1 (split_dcolon_from_join deck_name) []).
  - apply split_dcolon_from_some.
Qed.

(** ** The note loop *)

Lemma for_each_cons {A S : Type} (body : S -> A -> list event * (exn + S))
    (x : A) (xs : list A) (st : S) :
  for_each body (x :: xs) st
  = match body st x with
    | (tr, inl e) => (tr, inl e)
    | (tr, inr st') =>
        (tr ++ fst (for_each body xs st'), snd (for_each body xs st'))
    end.
Proof.
  simpl. destruct (body st x) as [tr [e | st']]; [reflexivity |].
  destruct (for_each body xs st'); reflexivity.
Qed.

Lemma with_base_cons handle base n notes :
  with_base handle base (n :: notes)
  = (if str_eqb (base_filename_of handle n) base then 1 else 0)
    + with_base handle base notes.
Proof.
  unfold with_base. simpl.
  destruct (str_eqb (base_filename_of handle n) base); reflexivity.
Qed.

(** Whatever the loop opens at position [i] is the file of the note at
    position [i], named after the notes of the same base before it. *)
Lemma opened_paths_lookup handle dir notes st i p :
  opened_paths (fst (for_each (process_note handle dir) notes st)) !! i = Some p ->
  exists n,
    notes !! i = Some n
    /\ p = os_path_join dir
             [nth_filename (base_filename_of handle n)
                (default 0 (title_counts st !! base_filename_of handle n)
                 + with_base handle (base_filename_of handle n) (firstn i notes))].
Proof.
  revert st i. induction notes as [|n0 notes IH]; intros st i Hp; [discriminate |].
  rewrite for_each_cons, process_note_outcome in Hp. cbv zeta in Hp.
  destruct (if truthy (default [] (fields n0 !! lit "Front"))
            then Some (clean_field handle (Some (default [] (fields n0 !! lit "Front"))))
            else title st) as [t|].
  - cbn [fst app] in Hp. rewrite !opened_paths_cons in Hp.
    destruct i as [|i].
    + injection Hp as <-. exists n0. split; [reflexivity |].
      simpl firstn. unfold with_base at 1. simpl. rewrite Nat.add_0_r. reflexivity.
    + simpl in Hp. destruct (IH _ _ Hp) as (n & Hn & ->).
      exists n. split; [exact Hn |]. cbn [title_counts firstn].
      rewrite with_base_cons. do 3 f_equal.
      destruct (str_eqb (base_filename_of handle n0) (base_filename_of handle n)) eqn:E.
      * apply str_eqb_eq in E. rewrite E, lookup_insert_eq. simpl. lia.
      * rewrite lookup_insert_ne; [reflexivity |].
        intros H. rewrite <- str_eqb_eq in H. congruence.
  - cbn [fst] in Hp. rewrite opened_paths_cons in Hp.
    destruct i as [|i]; [| discriminate].
    injection Hp as <-. exists n0. split; [reflexivity |].
    simpl firstn. unfold with_base at 1. simpl. rewrite Nat.add_0_r. reflexivity.
Qed.



Lemma note_loop_completed_length handle dir notes st st' :
  snd (for_each (process_note handle dir) notes st) = inr st' ->
  length (opened_paths (fst (for_each (process_note handle dir) notes st)))
  = length notes.
Proof.
  revert st. induction notes as [|n notes IH]; intros st; [reflexivity |].
  rewrite for_each_cons, process_note_outcome. cbv zeta.
  destruct (if truthy (default [] (fields n !! lit "Front"))
            then Some (clean_field handle (Some (default [] (fields n !! lit "Front"))))
            else title st) as [t|]; [| discriminate].
  cbn [fst snd app]. intros H. rewrite !opened_paths_cons.
  simpl. f_equal. exact (IH _ H).
Qed.

Lemma expected_paths_lookup handle dir notes i n :
  notes !! i = Some n ->
  expected_paths handle dir notes !! i
  = Some (os_path_join dir
            [nth_filename (base_filename_of handle n)
               (with_base handle (base_filename_of handle n) (firstn i notes))]).
Proof.
  intros H. unfold expected_paths. rewrite list_lookup_imap, H. reflexivity.
Qed.

(** X10: in a deck, the file of a note is named after its base name and the
    number of earlier notes of the deck with the same base name: [base.md]
    when there is none, [base_k.md] when there are [k].  The paths the loop
    opens are the first of these, and all of them when it ends normally. *)
Theorem note_loop_paths handle dir notes title0 :
  let run := for_each (process_note handle dir) notes
                      {| title := title0; title_counts := ∅ |} in
  opened_paths (fst run)
  = firstn (length (opened_paths (fst run))) (expected_paths handle dir notes)
  /\ match snd run with
     | inr _ => opened_paths (fst run) = expected_paths handle dir notes
     | inl _ => True
     end.
Proof.
  intros run.
  assert (Hlookup : forall i p, opened_paths (fst run) !! i = Some p ->
                                expected_paths handle dir notes !! i = Some p).
  { intros i p Hp. apply opened_paths_lookup in Hp. destruct Hp as (n & Hn & ->).
    rewrite (expected_paths_lookup _ _ _ _ _ Hn). cbn [title_counts].
    rewrite lookup_empty. reflexivity. }
  assert (Hprefix : opened_paths (fst run)
                    = firstn (length (opened_paths (fst run)))
                             (expected_paths handle dir notes)).
  { apply list_eq. intros i.
    destruct (opened_paths (fst run) !! i) as [p|] eqn:Hp.
    - rewrite lookup_take_lt by (apply lookup_lt_Some in Hp; exact Hp).
      symmetry. exact (Hlookup _ _ Hp).
    - apply lookup_ge_None in Hp. rewrite lookup_take_ge by exact Hp. reflexivity. }
  split; [exact Hprefix |].
  destruct (snd run) as [e | st'] eqn:Hr; [exact I |].
  etransitivity; [exact Hprefix |].
  unfold run in *. rewrite (note_loop_completed_length _ _ _ _ _ Hr).
  apply firstn_all2. unfold expected_paths. rewrite length_imap. reflexivity.
Qed.

Lemma base_filename_of_sanitized handle n : sanitized (base_filename_of handle n).
Proof. unfold base_filename_of. apply sanitize_filename_sanitized. Qed.

Lemma nth_filename_no_leading_sep base k :
  sanitized base -> startswith_sep (nth_filename base k) = false.
Proof.
  intros Hb. destruct (sanitized_segment _ Hb) as [Hne Hno].
  destruct base as [|c base]; [contradiction |].
  destruct k; simpl; apply N.eqb_neq; intros ->; apply Hno; left; reflexivity.
Qed.

Lemma os_path_join_single_inj (dir x y : pystr) :
  startswith_sep x = false -> startswith_sep y = false ->
  os_path_join dir [x] = os_path_join dir [y] -> x = y.
Proof.
  intros Hx Hy. simpl. rewrite Hx, Hy.
  destruct (negb (truthy dir) || endswith_sep dir); intros H.
  - exact (app_inv_head _ _ _ H).
  - apply app_inv_head in H. injection H as H. exact H.
Qed.

Lemma with_base_grows handle base notes i j n :
  i < j -> notes !! i = Some n -> base_filename_of handle n = base ->
  with_base handle base (firstn i notes) < with_base handle base (firstn j notes).
Proof.
  revert i j. induction notes as [|n0 notes IH]; intros i j Hij Hn Hb; [discriminate |].
  destruct j as [|j]; [lia |].
  destruct i as [|i]; cbn [firstn]; rewrite with_base_cons.
  - simpl in Hn. injection Hn as ->.
    apply str_eqb_eq in Hb. rewrite Hb. unfold with_base at 1. simpl. lia.
  - rewrite with_base_cons. simpl in Hn.
    specialize (IH i j ltac:(lia) Hn Hb). lia.
Qed.

(** X12: two notes of a deck that derive the same base name are never given
    the same file: whatever the loop opens for them differs. *)
Theorem same_base_paths_differ handle dir notes st i j ni nj p q :
  i <> j ->
  notes !! i = Some ni -> notes !! j = Some nj ->
  base_filename_of handle ni = base_filename_of handle nj ->
  opened_paths (fst (for_each (process_note handle dir) notes st)) !! i = Some p ->
  opened_paths (fst (for_each (process_note handle dir) notes st)) !! j = Some q ->
  p <> q.
Proof.
  intros Hij Hni Hnj Hb Hp Hq Hpq. subst q.
  apply opened_paths_lookup in Hp, Hq.
  destruct Hp as (n & Hn & Hp), Hq as (n' & Hn' & Hq).
  rewrite Hni in Hn. injection Hn as <-.
  rewrite Hnj in Hn'. injection Hn' as <-.
  rewrite Hp in Hq. rewrite <- Hb in Hq.
  apply os_path_join_single_inj in Hq;
    try (apply nth_filename_no_leading_sep, base_filename_of_sanitized).
  apply nth_filename_inj in Hq.
  assert (Hlt : i < j \/ j < i) by lia.
  destruct Hlt as [Hlt | Hlt].
  - pose proof (with_base_grows handle _ notes i j ni Hlt Hni eq_refl). lia.
  - pose proof (with_base_grows handle _ notes j i nj Hlt Hnj (eq_sym Hb)). lia.
Qed.

(** Two notes with the front "a": [a.md] and [a_1.md]. *)
Lemma same_base_paths_differ_witness :
  let handle : pystr -> pystr := fun field => field ++ [NL; NL] in
  let notes := [note_with_front 1 (lit "a"); note_with_front 2 (lit "a")] in
  let opened :=
    opened_paths (fst (for_each (process_note handle (lit "D")) notes
                                {| title := None; title_counts := ∅ |})) in
  opened !! 0 = Some (lit "D/a.md")
  /\ opened !! 1 = Some (lit "D/a_1.md")
  /\ lit "D/a.md" <> lit "D/a_1.md".
Proof.
  intros handle notes opened.
  split; [reflexivity |]. split; [reflexivity |].
  apply (same_base_paths_differ handle (lit "D") notes
           {| title := None; title_counts := ∅ |} 0 1
           (note_with_front 1 (lit "a")) (note_with_front 2 (lit "a")));
    try reflexivity.
  discriminate.
Defined.

Lemma with_base_none handle base notes :
  (forall n, In n notes -> base_filename_of handle n <> base) ->
  with_base handle base notes = 0.
Proof.
  induction notes as [|n notes IH]; intros H; [reflexivity |].
  rewrite with_base_cons, IH by (intros m Hm; apply H; right; exact Hm).
  destruct (str_eqb (base_filename_of handle n) base) eqn:E; [| reflexivity].
  apply str_eqb_eq in E. exfalso. apply (H n); [left; reflexivity | exact E].
Qed.

(** X13: in a deck whose notes derive pairwise different base names, no two
    notes are given the same file. *)
Theorem distinct_bases_distinct_paths handle dir notes title0 :
  NoDup (map (base_filename_of handle) notes) ->
  NoDup (opened_paths
           (fst (for_each (process_note handle dir) notes
                          {| title := title0; title_counts := ∅ |}))).
Proof.
  intros Hnd. apply NoDup_alt. intros i j p Hp Hq.
  apply opened_paths_lookup in Hp, Hq.
  destruct Hp as (ni & Hni & Hp), Hq as (nj & Hnj & Hq).
  cbn [title_counts] in Hp, Hq. rewrite lookup_empty in Hp, Hq.
  assert (Hzero : forall k n, notes !! k = Some n ->
            with_base handle (base_filename_of handle n) (firstn k notes) = 0).
  { intros k n Hk. apply with_base_none. intros m Hm Hbm.
    apply list_elem_of_In, list_elem_of_lookup in Hm. destruct Hm as (l & Hl).
    assert (Hlk : l < k).
    { apply lookup_lt_Some in Hl. rewrite length_take in Hl. lia. }
    rewrite lookup_take_lt in Hl by exact Hlk.
    assert (l = k); [| lia].
    rewrite NoDup_alt in Hnd.
    apply (Hnd l k (base_filename_of handle n)).
    - change (map (base_filename_of handle) notes)
        with (base_filename_of handle <$> notes).
      rewrite list_lookup_fmap, Hl. simpl. congruence.
    - change (map (base_filename_of handle) notes)
        with (base_filename_of handle <$> notes).
      rewrite list_lookup_fmap, Hk. reflexivity. }
  rewrite (Hzero _ _ Hni) in Hp. rewrite (Hzero _ _ Hnj) in Hq.
  rewrite Hp in Hq.
  apply os_path_join_single_inj in Hq;
    try (apply nth_filename_no_leading_sep, base_filename_of_sanitized).
  simpl in Hq. apply app_inv_tail in Hq.
  rewrite NoDup_alt in Hnd.
  apply (Hnd i j (base_filename_of handle ni)).
  - change (map (base_filename_of handle) notes)
      with (base_filename_of handle <$> notes).
    rewrite list_lookup_fmap, Hni. reflexivity.
  - change (map (base_filename_of handle) notes)
      with (base_filename_of handle <$> notes).
    rewrite list_lookup_fmap, Hnj. simpl. congruence.
Qed.

(** Fronts "a" and "b": two files. *)
Lemma distinct_bases_distinct_paths_witness :
  let handle : pystr -> pystr := fun field => field ++ [NL; NL] in
  let notes := [note_with_front 1 (lit "a"); note_with_front 2 (lit "b")] in
  NoDup (opened_paths
           (fst (for_each (process_note handle (lit "D")) notes
                          {| title := None; title_counts := ∅ |}))).
Proof.
  intros handle notes.
  apply (distinct_bases_distinct_paths handle (lit "D") notes None).
  apply NoDup_alt. intros [|[|i]] [|[|j]] x; vm_compute; congruence.
Defined.

(** ** The run as a whole *)

Lemma process_deck_no_notes handle srv title0 deck_name :
  get_notes_in_deck srv deck_name = inr [] ->
  process_deck handle srv title0 deck_name
  = ([Printed (lit "Processing deck: " ++ deck_name);
      Printed (lit "No notes found in deck: " ++ deck_name)],
     inr title0).
Proof. intros H. unfold process_deck. rewrite H. reflexivity. Qed.

(** X14: when the server lists decks and none of them has notes, the run
    creates the output root and nothing else on the file system, and prints
    the two notices of every deck, in order. *)
Theorem main_decks_without_notes handle srv deck_names :
  get_deck_names srv = inr deck_names -> deck_names <> [] ->
  (forall d, In d deck_names -> get_notes_in_deck srv d = inr []) ->
  main handle srv
  = MadeDirs output_dir
    :: flat_map (fun d => [Printed (lit "Processing deck: " ++ d);
                           Printed (lit "No notes found in deck: " ++ d)])
                deck_names.
Proof.
  intros Hdecks Hne Hnone. unfold main. rewrite Hdecks.
  apply truthy_nonempty in Hne. rewrite Hne. simpl negb. cbv iota.
  assert (Hrun : forall title0,
            for_each (process_deck handle srv) deck_names title0
            = (flat_map (fun d => [Printed (lit "Processing deck: " ++ d);
                                   Printed (lit "No notes found in deck: " ++ d)])
                        deck_names,
               inr title0)).
  { clear Hdecks Hne. induction deck_names as [|d ds IH]; intros title0; [reflexivity |].
    rewrite for_each_cons, process_deck_no_notes by (apply Hnone; left; reflexivity).
    rewrite IH by (intros d' Hd'; apply Hnone; right; exact Hd'). reflexivity. }
  rewrite Hrun. simpl. rewrite app_nil_r. reflexivity.
Qed.

(** Two decks, and no note ids for either. *)
Lemma main_decks_without_notes_witness :
  let srv :=
    {| deckNames := Replied 200 (Some (Dict (Some JNull) (Some [lit "A"; lit "B"])));
       findNotes := fun _ => Replied 200 (Some (Dict (Some JNull) (Some [])));
       notesInfo := fun _ => ConnectionFailed |} in
  main (fun field => field) srv
  = [ MadeDirs (lit "markdown_output");
      Printed (lit "Processing deck: A"); Printed (lit "No notes found in deck: A");
      Printed (lit "Processing deck: B"); Printed (lit "No notes found in deck: B") ].
Proof.
  intros srv.
  apply (main_decks_without_notes (fun field => field) srv [lit "A"; lit "B"]).
  - reflexivity.
  - discriminate.
  - intros d _. reflexivity.
Defined.




Lemma os_path_join_shape (segs : list pystr) (path : pystr) :
  path <> [] -> endswith_sep path = false -> Forall segment segs ->
  os_path_join path segs <> [] /\ endswith_sep (os_path_join path segs) = false.
Proof.
  revert path. induction segs as [|b segs IH]; intros path Hne Hend Hsegs.
  - split; assumption.
  - inversion Hsegs as [|? ? Hb Hrest]; subst.
    simpl os_path_join.
    rewrite (segment_no_leading_sep _ Hb), Hend.
    apply truthy_nonempty in Hne. rewrite Hne. simpl negb. simpl orb. cbv iota.
    apply IH; [destruct path; discriminate | | exact Hrest].
    change (endswith_sep (path ++ [SLASH] ++ b) = false).
    rewrite List.app_assoc. apply segment_no_trailing_sep, Hb.
Qed.

Lemma directory_path_segments (deck_name : pystr) :
  Forall segment (map sanitize_filename (List.filter truthy (split_dcolon deck_name))).
Proof.
  apply List.Forall_forall. intros s Hs. apply in_map_iff in Hs.
  destruct Hs as (x & <- & _).
  apply sanitized_segment, sanitize_filename_sanitized.
Qed.

Lemma directory_path_shape (deck_name : pystr) :
  directory_path deck_name <> [] /\ endswith_sep (directory_path deck_name) = false.
Proof.
  unfold directory_path.
  apply os_path_join_shape; [discriminate | reflexivity | apply directory_path_segments].
Qed.

Lemma os_path_join_single (dir x : pystr) :
  dir <> [] -> endswith_sep dir = false -> startswith_sep x = false ->
  os_path_join dir [x] = dir ++ SLASH :: x.
Proof.
  intros Hne Hend Hx. simpl. rewrite Hx, Hend.
  apply truthy_nonempty in Hne. rewrite Hne. reflexivity.
Qed.

(** The file of a note in the directory of a deck. *)
Lemma note_path_in_directory handle deck_name n k :
  os_path_join (directory_path deck_name) [nth_filename (base_filename_of handle n) k]
  = directory_path deck_name ++ SLASH :: nth_filename (base_filename_of handle n) k.
Proof.
  destruct (directory_path_shape deck_name) as [Hne Hend].
  apply os_path_join_single; [exact Hne | exact Hend |].
  apply nth_filename_no_leading_sep, base_filename_of_sanitized.
Qed.

Lemma for_each_Forall_In {A S : Type} (P : event -> Prop)
    (body : S -> A -> list event * (exn + S)) (xs : list A) (st : S) :
  (forall st x, In x xs -> Forall P (fst (body st x))) ->
  Forall P (fst (for_each body xs st)).
Proof.
  revert st. induction xs as [|x xs IH]; intros st Hbody; [constructor |].
  rewrite for_each_cons.
  pose proof (Hbody st x (or_introl eq_refl)) as Hx.
  destruct (body st x) as [tr [e | st']]; [exact Hx |].
  simpl in *. apply Forall_app. split; [exact Hx |].
  apply IH. intros st0 x0 Hx0. apply Hbody. right. exact Hx0.
Qed.

(** What one iteration of the note loop does to the file system: it opens
    one file of the directory, and writes to no other. *)
Lemma process_note_events handle deck_name st n :
  exists k rest,
    fst (process_note handle (directory_path deck_name) st n)
    = Opened (directory_path deck_name
              ++ SLASH :: nth_filename (base_filename_of handle n) k) :: rest
    /\ Forall (fun ev =>
                 match ev with
                 | Wrote p _ =>
                     p = directory_path deck_name
                         ++ SLASH :: nth_filename (base_filename_of handle n) k
                 | Printed _ => True
                 | _ => False
                 end) rest.
Proof.
  rewrite process_note_outcome. cbv zeta. rewrite note_path_in_directory.
  destruct (if truthy _ then _ else _); do 2 eexists;
    (split; [reflexivity | repeat constructor]).
Qed.

Lemma process_deck_in_directory handle srv title0 deck_name :
  listed srv deck_name ->
  Forall (in_deck_directory handle srv)
         (fst (process_deck handle srv title0 deck_name)).
Proof.
  intros Hd. unfold process_deck.
  destruct (get_notes_in_deck srv deck_name) as [e | notes];
    [repeat constructor |].
  destruct (truthy notes); simpl; [| repeat constructor].
  pose proof (for_each_Forall (in_deck_directory handle srv)
                (process_note handle (directory_path deck_name)) notes
                {| title := title0; title_counts := ∅ |}) as H.
  destruct (for_each _ notes _) as [tr r]. simpl in *.
  constructor; [exact I |]. constructor; [right; eauto |].
  apply H. intros st n.
  destruct (process_note_events handle deck_name st n) as (k & rest & -> & Hrest).
  constructor; [simpl; eauto |].
  eapply Forall_impl; [exact Hrest |].
  intros [] Hev; simpl in *; try contradiction; try exact I.
  subst. eauto.
Qed.

(** X16: every directory the run creates is the output root or the
    directory of a deck the server listed, and every file it opens or writes
    stands directly in the directory of such a deck, under a name made of a
    note's base name, an optional "_k" and ".md". *)
Theorem main_in_deck_directories handle srv :
  Forall (in_deck_directory handle srv) (main handle srv).
Proof.
  unfold main.
  destruct (get_deck_names srv) as [e | deck_names] eqn:Hdecks;
    [repeat constructor |].
  destruct (truthy deck_names); simpl negb; cbv iota; [| repeat constructor].
  pose proof (for_each_Forall_In (in_deck_directory handle srv)
                (process_deck handle srv) deck_names None) as H.
  destruct (for_each _ deck_names None) as [tr r]. simpl fst in H.
  constructor; [left; reflexivity |].
  apply Forall_app. split.
  - apply H. intros st d Hd. apply process_deck_in_directory.
    unfold listed. rewrite Hdecks. exact Hd.
  - destruct r; repeat constructor.
Qed.






(** ** A run without failures *)









(** ** When the note loop stops *)



(** ** The client functions *)

Lemma anki_connect_returns {R} (reply : post_result R) (r : R) :
  anki_connect reply = inr r ->
  transport_fails reply = false /\ error_truthy reply = false
  /\ result_member reply = Some r.
Proof.
  unfold error_truthy.
  destruct reply as [|status_code [[|error result]|]]; simpl;
    try destruct (raise_for_status status_code); simpl;
    try destruct (json_truthy (default JNull error)); simpl;
    try destruct result; settle_cases.
Qed.

(** X20: a deck is taken to be empty only on the server's word: when
    [get_notes_in_deck] returns no notes, the "findNotes" request went
    through without a transport failure and without an error marker, and
    either it found no ids or the "notesInfo" request, answered in the same
    way, returned no notes.  A failed request is never read as an empty
    deck. *)
Theorem get_notes_in_deck_empty (srv : server) (deck_name : pystr) :
  get_notes_in_deck srv deck_name = inr [] ->
  let found := findNotes srv (lit "deck:" ++ [QUOTE] ++ deck_name ++ [QUOTE]) in
  transport_fails found = false /\ error_truthy found = false
  /\ (result_member found = Some []
      \/ exists note_ids,
           result_member found = Some note_ids
           /\ transport_fails (notesInfo srv note_ids) = false
           /\ error_truthy (notesInfo srv note_ids) = false
           /\ result_member (notesInfo srv note_ids) = Some []).
Proof.
  intros H found. unfold get_notes_in_deck in H. fold found in H.
  destruct (anki_connect found) as [e | note_ids] eqn:Hfound; [discriminate |].
  destruct (anki_connect_returns _ _ Hfound) as (Ht & He & Hr).
  split; [exact Ht |]. split; [exact He |].
  destruct note_ids as [|id ids]; [left; exact Hr |].
  simpl in H. right. exists (id :: ids).
  destruct (anki_connect_returns _ _ H) as (Ht' & He' & Hr').
  repeat split; assumption.
Qed.

(** A server that finds no note ids for the deck. *)
Lemma get_notes_in_deck_empty_witness :
  let srv := srv_one_deck (lit "D") [] in
  get_notes_in_deck srv (lit "D") = inr []
  /\ transport_fails (findNotes srv (lit "deck:" ++ [QUOTE] ++ lit "D" ++ [QUOTE])) = false.
Proof.
  intros srv. split; [reflexivity |].
  exact (proj1 (get_notes_in_deck_empty srv (lit "D") eq_refl)).
Defined.
